(** * Particle swarm optimizer: a shallow embedding of [PSOType::Optimize]
      and of the [InertiaWeight] velocity policy.

    Sources embedded:
    - [pso_impl.hpp]          : [PSOType::PSOType], [PSOType::Optimize];
    - [inertia_weight.hpp]    : [InertiaWeight::Update], in its two versions
      (the one drawing two random matrices, and the older element loop);
    - [pso.hpp]               : the configuration fields and their documented
      contract.

    A C++ [double] is a binary64 number: it is modelled by Rocq's primitive
    [float], whose operations are the IEEE 754 ones (round to nearest even),
    so that [<] is [PrimFloat.ltb], NaN included.  Sizes and loop counters
    ([size_t]) are [nat]: every counter of the source is bounded by the limit
    it is compared with, so none of them wraps. *)

From Stdlib Require Import List ZArith PArith Lia Bool Arith Floats.
Import ListNotations.

Set Implicit Arguments.

(* ------------------------------------------------------------------ *)
(** ** Doubles *)

Module Dbl.

Definition double := float.

(** [DBL_MAX] of <cfloat>: the largest finite binary64 number. *)
Definition DBL_MAX : double := 0x1.fffffffffffffp+1023%float.

(** The C++ operators on [double] used by the source. *)
Definition lt (x y : double) : bool := PrimFloat.ltb x y.
Definition le (x y : double) : bool := PrimFloat.leb x y.
Definition isnan (x : double) : bool := PrimFloat.is_nan x.

End Dbl.
Import Dbl.

(* ------------------------------------------------------------------ *)
(** ** Undefined behaviour and the execution monad *)

(** What the source can do wrong.  Armadillo's [operator[]] never checks
    its index; [Cube::slice] and the elementwise operators check theirs,
    and throw, unless the checks are compiled out ([ARMA_NO_DEBUG]); a local
    [double] without initializer holds no value.  Each of these ends the
    run the model follows: with an exception where Armadillo checks, with
    undefined behaviour where it does not. *)
Inductive fault : Type :=
| SliceOutOfBounds      (* [c.slice(i)] with [i >= c.n_slices] *)
| ElementOutOfBounds    (* [m[i]] with [i >= m.n_elem] *)
| IncompatibleSize      (* elementwise operation on different shapes *)
| UninitializedRead.    (* a local read before any assignment *)

Inductive exec (A : Type) : Type :=
| Done (a : A)
| Undefined (f : fault).
Arguments Undefined {A} f.

Definition bind {A B : Type} (e : exec A) (k : A -> exec B) : exec B :=
  match e with
  | Done a => k a
  | Undefined f => Undefined f
  end.

Declare Scope exec_scope.
Delimit Scope exec_scope with exec.
Notation "x <- e ;; k" := (bind e (fun x => k))
  (at level 61, e at next level, right associativity) : exec_scope.
Local Open Scope exec_scope.

(** [for (size_t i = lo; i < lo + n; ++i) body] on a loop state. *)
Fixpoint for_range {St : Type} (lo n : nat) (body : nat -> St -> exec St)
  (s : St) : exec St :=
  match n with
  | 0 => Done s
  | S n' => s' <- body lo s ;; for_range (S lo) n' body s'
  end.

(** [for (size_t i = 0; i < n; ++i) body]. *)
Definition for_upto {St : Type} (n : nat) (body : nat -> St -> exec St)
  (s : St) : exec St :=
  for_range 0 n body s.

(* ------------------------------------------------------------------ *)
(** ** Dense containers: [arma::mat] and [arma::cube] *)

(** A matrix: its shape and its elements in memory order (column major),
    [mem] being [n_rows * n_cols] long in a matrix that Armadillo built. *)
Record mat : Type := Mat {
  n_rows : nat;
  n_cols : nat;
  mem : list double
}.

Definition n_elem (m : mat) : nat := n_rows m * n_cols m.

Definition mat_ok (m : mat) : Prop := length (mem m) = n_elem m.

Definition same_shape (a b : mat) : bool :=
  Nat.eqb (n_rows a) (n_rows b) && Nat.eqb (n_cols a) (n_cols b).

(** [m[i]]: linear element access, unchecked in the source. *)
Definition at_ (m : mat) (i : nat) : exec double :=
  match nth_error (mem m) i with
  | Some x => Done x
  | None => Undefined ElementOutOfBounds
  end.

(** [k * m], scalar times matrix. *)
Definition scale (k : double) (m : mat) : mat :=
  Mat (n_rows m) (n_cols m) (map (fun x => PrimFloat.mul k x) (mem m)).

(** [k - m], scalar minus matrix: every element [x] becomes [k - x]. *)
Definition scalar_minus (k : double) (m : mat) : mat :=
  Mat (n_rows m) (n_cols m) (map (fun x => PrimFloat.sub k x) (mem m)).

Fixpoint zip_with (f : double -> double -> double) (a b : list double)
  : list double :=
  match a, b with
  | x :: a', y :: b' => f x y :: zip_with f a' b'
  | _, _ => []
  end.

Definition elementwise (f : double -> double -> double) (a b : mat)
  : exec mat :=
  if same_shape a b
  then Done (Mat (n_rows a) (n_cols a) (zip_with f (mem a) (mem b)))
  else Undefined IncompatibleSize.

(** [a + b] and [a % b] (Schur product) on matrices. *)
Definition plus (a b : mat) : exec mat := elementwise PrimFloat.add a b.
Definition schur (a b : mat) : exec mat := elementwise PrimFloat.mul a b.

(** A cube: [length slices] matrices of one shape. *)
Record cube : Type := Cube {
  c_n_rows : nat;
  c_n_cols : nat;
  slices : list mat
}.

Definition n_slices (c : cube) : nat := length (slices c).

Definition has_shape (r c : nat) (m : mat) : Prop :=
  n_rows m = r /\ n_cols m = c /\ mat_ok m.

(** [c.slice(i)] read. *)
Definition slice (c : cube) (i : nat) : exec mat :=
  match nth_error (slices c) i with
  | Some m => Done m
  | None => Undefined SliceOutOfBounds
  end.

Fixpoint replace_nth (l : list mat) (i : nat) (m : mat) : list mat :=
  match l, i with
  | [], _ => []
  | _ :: l', 0 => m :: l'
  | x :: l', S i' => x :: replace_nth l' i' m
  end.

(** [c.slice(i) = m]: the slice keeps the cube's shape, so [m] must have
    it. *)
Definition set_slice (c : cube) (i : nat) (m : mat) : exec cube :=
  if Nat.ltb i (n_slices c) then
    if Nat.eqb (n_rows m) (c_n_rows c) && Nat.eqb (n_cols m) (c_n_cols c)
    then Done (Cube (c_n_rows c) (c_n_cols c) (replace_nth (slices c) i m))
    else Undefined IncompatibleSize
  else Undefined SliceOutOfBounds.

(** [c.set_size(r, k, n)].  The source leaves the new elements without a
    value and overwrites every slice before reading any; the model fills
    them with zeros. *)
Definition set_size (r k n : nat) : cube :=
  Cube r k (repeat (Mat r k (repeat PrimFloat.zero (r * k))) n).

Fixpoint zip_slices (a b : list mat) : exec (list mat) :=
  match a, b with
  | x :: a', y :: b' =>
      s <- plus x y ;; r <- zip_slices a' b' ;; Done (s :: r)
  | [], [] => Done []
  | _, _ => Undefined IncompatibleSize
  end.

(** [a + b] on cubes. *)
Definition cube_plus (a b : cube) : exec cube :=
  if Nat.eqb (c_n_rows a) (c_n_rows b) && Nat.eqb (c_n_cols a) (c_n_cols b)
  then s <- zip_slices (slices a) (slices b) ;;
       Done (Cube (c_n_rows a) (c_n_cols a) s)
  else Undefined IncompatibleSize.

(* ------------------------------------------------------------------ *)
(** ** The uniform random source *)

(** The sequence of uniform draws the generator yields after
    [arma_rng::set_seed_random()]; the optimizer keeps the number of draws
    consumed so far. *)
Definition source : Type := nat -> double.

(** [arma::mat r(rows, cols, arma::fill::randu)]: fills the elements in
    memory order, starting at draw number [drawn]. *)
Definition randu (src : source) (drawn rows cols : nat) : mat * nat :=
  (Mat rows cols (map src (seq drawn (rows * cols))), drawn + rows * cols).

(* ------------------------------------------------------------------ *)
(** ** The optimizer *)

(** The fields [PSOType::PSOType] stores, except the velocity policy,
    which is the class below. *)
Record PSOType : Type := PSO {
  dimension : nat;                  (* number of particles *)
  interiaWeight : double;
  cognitiveAcceleration : double;
  socialAcceleration : double;
  maxIterations : nat;
  tolerance : double
}.

(** The template parameter [VelocityVectorType]: its [Update] reads the
    positions and both best matrices, rewrites the velocities, and may draw
    from the random source (it returns the new count of draws). *)
Class VelocityVectorType : Type := {
  Update : source -> nat ->         (* random source, draws consumed *)
           cube ->                  (* particlePosition *)
           cube ->                  (* particleVelocity *)
           mat ->                   (* bestParticlePosition *)
           mat ->                   (* bestSwarmPosition *)
           double -> double -> double ->   (* omega, c1, c2 *)
           nat ->                   (* dimension *)
           exec (cube * nat)
}.

(** What an iteration tells the loop: [return v;] or go on. *)
Inductive control : Type :=
| Return (v : double)
| Next.

Section Optimizer.

(** The template parameter [DecomposableFunctionType]: [Evaluate] is a
    non-const member, so it may change the function object. *)
Variable Fn : Type.
Variable Evaluate : Fn -> mat -> double * Fn.

Context {velocityType : VelocityVectorType}.

(** The variables [Optimize] works on: the argument [iterate] (a
    reference to the caller's matrix), the members, the three locals, the
    function object and the count of random draws.  [evaluated] and
    [trajectory] are ghost fields: the values [Evaluate] returned so far,
    latest last, and the (position, velocity) cubes at the end of each
    iteration, latest last. *)
Record state : Type := State {
  iterate : mat;
  particlePosition : cube;
  particleVelocity : cube;
  bestParticlePosition : mat;
  bestSwarmPosition : mat;
  currentObjective : option double;     (* [None]: no value yet *)
  lastObjectiveIndividual : double;
  lastObjectiveGlobal : double;
  function : Fn;
  drawn : nat;
  evaluated : list double;
  trajectory : list (cube * cube)
}.

Variable opt : PSOType.
Variable src : source.

(** Lines 47-65: sizes, copies of [iterate], bests from slice 0, locals. *)
Definition fill_slices (it : mat) (i : nat) (pv : cube * cube)
  : exec (cube * cube) :=
  p <- set_slice (fst pv) i it ;;
  v <- set_slice (snd pv) i it ;;
  Done (p, v).

Definition initialize (fn : Fn) (it : mat) : exec state :=
  let p0 := set_size (n_rows it) (n_cols it) (dimension opt) in
  let v0 := set_size (n_rows it) (n_cols it) (dimension opt) in
  pv <- for_upto (dimension opt) (fill_slices it) (p0, v0) ;;
  bp <- slice (fst pv) 0 ;;
  bs <- slice (fst pv) 0 ;;
  Done {| iterate := it;
          particlePosition := fst pv;
          particleVelocity := snd pv;
          bestParticlePosition := bp;
          bestSwarmPosition := bs;
          currentObjective := None;
          lastObjectiveIndividual := DBL_MAX;
          lastObjectiveGlobal := DBL_MAX;
          function := fn;
          drawn := 0;
          evaluated := [];
          trajectory := [] |}.

(** Lines 73-80: the body of the loop over the particles. *)
Definition evaluate_particle (k : nat) (s : state) : exec state :=
  x <- slice (particlePosition s) k ;;
  let (v, fn') := Evaluate (function s) x in
  let improves := lt v (lastObjectiveIndividual s) in
  Done {| iterate := iterate s;
          particlePosition := particlePosition s;
          particleVelocity := particleVelocity s;
          bestParticlePosition :=
            if improves then x else bestParticlePosition s;
          bestSwarmPosition := bestSwarmPosition s;
          currentObjective := Some v;
          lastObjectiveIndividual :=
            if improves then v else lastObjectiveIndividual s;
          lastObjectiveGlobal := lastObjectiveGlobal s;
          function := fn';
          drawn := drawn s;
          evaluated := evaluated s ++ [v];
          trajectory := trajectory s |}.

(** Lines 70-81: the loop over the particles. *)
Definition evaluate_swarm (s : state) : exec state :=
  for_upto (dimension opt) evaluate_particle s.

(** Lines 84-88. *)
Definition update_global (s : state) : state :=
  let improves := lt (lastObjectiveIndividual s) (lastObjectiveGlobal s) in
  {| iterate := iterate s;
     particlePosition := particlePosition s;
     particleVelocity := particleVelocity s;
     bestParticlePosition := bestParticlePosition s;
     bestSwarmPosition :=
       if improves then bestParticlePosition s else bestSwarmPosition s;
     currentObjective := currentObjective s;
     lastObjectiveIndividual := lastObjectiveIndividual s;
     lastObjectiveGlobal :=
       if improves then lastObjectiveIndividual s
       else lastObjectiveGlobal s;
     function := function s;
     drawn := drawn s;
     evaluated := evaluated s;
     trajectory := trajectory s |}.

(** Lines 70-88: both best-update steps of one iteration. *)
Definition update_bests (s : state) : exec state :=
  s1 <- evaluate_swarm s ;; Done (update_global s1).

(** Lines 91-93. *)
Definition update_velocity (s : state) : exec state :=
  vd <- Update src (drawn s) (particlePosition s) (particleVelocity s)
          (bestParticlePosition s) (bestSwarmPosition s)
          (interiaWeight opt) (cognitiveAcceleration opt)
          (socialAcceleration opt) (dimension opt) ;;
  Done {| iterate := iterate s;
          particlePosition := particlePosition s;
          particleVelocity := fst vd;
          bestParticlePosition := bestParticlePosition s;
          bestSwarmPosition := bestSwarmPosition s;
          currentObjective := currentObjective s;
          lastObjectiveIndividual := lastObjectiveIndividual s;
          lastObjectiveGlobal := lastObjectiveGlobal s;
          function := function s;
          drawn := snd vd;
          evaluated := evaluated s;
          trajectory := trajectory s |}.

(** Line 96. *)
Definition update_position (s : state) : exec state :=
  p <- cube_plus (particlePosition s) (particleVelocity s) ;;
  Done {| iterate := iterate s;
          particlePosition := p;
          particleVelocity := particleVelocity s;
          bestParticlePosition := bestParticlePosition s;
          bestSwarmPosition := bestSwarmPosition s;
          currentObjective := currentObjective s;
          lastObjectiveIndividual := lastObjectiveIndividual s;
          lastObjectiveGlobal := lastObjectiveGlobal s;
          function := function s;
          drawn := drawn s;
          evaluated := evaluated s;
          trajectory := trajectory s ++ [(p, particleVelocity s)] |}.

(** Lines 99-104: [if (currentObjective < tolerance) return
    currentObjective;]. *)
Definition check_tolerance (s : state) : exec control :=
  match currentObjective s with
  | None => Undefined UninitializedRead
  | Some c => Done (if lt c (tolerance opt) then Return c else Next)
  end.

(** Lines 69-105: the body of the iteration loop. *)
Definition iteration (s : state) : exec (control * state) :=
  s1 <- update_bests s ;;
  s2 <- update_velocity s1 ;;
  s3 <- update_position s2 ;;
  c <- check_tolerance s3 ;;
  Done (c, s3).

(** Lines 68-106: [n] is the number of iterations the loop may still
    start, [maxIterations - i]. *)
Fixpoint iterations (n : nat) (s : state) : exec (double * state) :=
  match n with
  | 0 => Done (lastObjectiveGlobal s, s)
  | S n' =>
      cs <- iteration s ;;
      match fst cs with
      | Return v => Done (v, snd cs)
      | Next => iterations n' (snd cs)
      end
  end.

(** [PSOType::Optimize]: the value returned, and the variables as the
    call leaves them ([iterate] among them, the by-reference argument).
    Line 45 reseeds the generator: [src] is what it draws from there on. *)
Definition Optimize (fn : Fn) (it : mat) : exec (double * state) :=
  s0 <- initialize fn it ;;
  iterations (maxIterations opt) s0.




End Optimizer.

(* ------------------------------------------------------------------ *)
(** ** The inertia-weight policy *)

Module InertiaWeight.

(** Lines 69-72 of the version that draws [r1] and [r2]: the new
    velocity of particle [i].  [*] and [%] associate to the left, and
    [bestParticlePosition[i]] is one element of the matrix. *)
Definition update_particle (r1 r2 : mat) (particlePosition : cube)
  (bestParticlePosition bestSwarmPosition : mat)
  (interiaWeight cognitiveAcceleration socialAcceleration : double)
  (i : nat) (particleVelocity : cube) : exec cube :=
  v <- slice particleVelocity i ;;
  pb <- at_ bestParticlePosition i ;;
  x <- slice particlePosition i ;;
  gb <- at_ bestSwarmPosition i ;;
  cognitive <- schur (scale cognitiveAcceleration r1) (scalar_minus pb x) ;;
  social <- schur (scale socialAcceleration r2) (scalar_minus gb x) ;;
  s <- plus (scale interiaWeight v) cognitive ;;
  s' <- plus s social ;;
  set_slice particleVelocity i s'.

(** Lines 52-74.  The source takes [dimension] as a [double], converted
    from the [size_t] of the optimizer: a count of slices converts exactly,
    and [i < dimension] compares the same numbers. *)
Definition Update (src : source) (drawn : nat)
  (particlePosition particleVelocity : cube)
  (bestParticlePosition bestSwarmPosition : mat)
  (interiaWeight cognitiveAcceleration socialAcceleration : double)
  (dimension : nat) : exec (cube * nat) :=
  let (r1, d1) :=
    randu src drawn (c_n_rows particlePosition) (c_n_cols particlePosition) in
  let (r2, d2) :=
    randu src d1 (c_n_rows particlePosition) (c_n_cols particlePosition) in
  v <- for_upto dimension
         (update_particle r1 r2 particlePosition bestParticlePosition
            bestSwarmPosition interiaWeight cognitiveAcceleration
            socialAcceleration)
         particleVelocity ;;
  Done (v, d2).

#[export] Instance policy : VelocityVectorType :=
  Build_VelocityVectorType Update.

End InertiaWeight.

(* ------------------------------------------------------------------ *)
(** ** The older [InertiaWeight::Update], an element loop *)

Fixpoint replace_elem (l : list double) (k : nat) (x : double) : list double :=
  match l, k with
  | [], _ => []
  | _ :: l', 0 => x :: l'
  | y :: l', S k' => y :: replace_elem l' k' x
  end.

(** [m[k] = x]: linear element assignment, unchecked in the source. *)
Definition set_at (m : mat) (k : nat) (x : double) : exec mat :=
  if Nat.ltb k (length (mem m))
  then Done (Mat (n_rows m) (n_cols m) (replace_elem (mem m) k x))
  else Undefined ElementOutOfBounds.

Module InertiaWeightElementLoop.

(** Lines 224-227.  In [m[j, k]] the comma is the comma operator: the
    element accessed is [m[k]], whatever [j].  [math::Random()] draws one
    number per call; the two calls of the statement are taken in the order
    of the text, which the language leaves open. *)
Definition update_element (src : source) (particlePosition : cube)
  (bestParticlePosition bestSwarmPosition : mat)
  (interiaWeight cognitiveAcceleration socialAcceleration : double)
  (i k : nat) (vd : cube * nat) : exec (cube * nat) :=
  let (particleVelocity, drawn) := vd in
  v <- slice particleVelocity i ;;
  vk <- at_ v k ;;
  pb <- at_ bestParticlePosition i ;;
  x <- slice particlePosition i ;;
  xk <- at_ x k ;;
  gb <- at_ bestSwarmPosition i ;;
  let cognitive :=
    PrimFloat.mul (PrimFloat.mul cognitiveAcceleration (src drawn))
      (PrimFloat.sub pb xk) in
  let social :=
    PrimFloat.mul (PrimFloat.mul socialAcceleration (src (S drawn)))
      (PrimFloat.sub gb xk) in
  v' <- set_at v k
          (PrimFloat.add (PrimFloat.add (PrimFloat.mul interiaWeight vk)
                            cognitive) social) ;;
  particleVelocity' <- set_slice particleVelocity i v' ;;
  Done (particleVelocity', S (S drawn)).

(** Lines 220-229: the two loops over the elements of particle [i]; their
    bounds are read from slice 0 of the positions. *)
Definition update_particle (src : source) (particlePosition : cube)
  (bestParticlePosition bestSwarmPosition : mat)
  (interiaWeight cognitiveAcceleration socialAcceleration : double)
  (i : nat) (vd : cube * nat) : exec (cube * nat) :=
  first <- slice particlePosition 0 ;;
  for_upto (n_rows first)
    (fun _ vd =>
       for_upto (n_cols first)
         (update_element src particlePosition bestParticlePosition
            bestSwarmPosition interiaWeight cognitiveAcceleration
            socialAcceleration i)
         vd)
    vd.

(** Lines 218-230: the loop over the particles. *)
Definition Update (src : source) (drawn : nat)
  (particlePosition particleVelocity : cube)
  (bestParticlePosition bestSwarmPosition : mat)
  (interiaWeight cognitiveAcceleration socialAcceleration : double)
  (dimension : nat) : exec (cube * nat) :=
  for_upto dimension
    (update_particle src particlePosition bestParticlePosition
       bestSwarmPosition interiaWeight cognitiveAcceleration
       socialAcceleration)
    (particleVelocity, drawn).

#[export] Instance policy : VelocityVectorType :=
  Build_VelocityVectorType Update.

End InertiaWeightElementLoop.

(* ------------------------------------------------------------------ *)
(** ** The update of the specification *)

(** The update as the specification words it: [personalBest] and
    [globalBest] enter as whole matrices, subtracted elementwise. *)
Definition minus (a b : mat) : exec mat := elementwise PrimFloat.sub a b.

Definition update_particle_as_specified (r1 r2 : mat) (particlePosition : cube)
  (personalBest globalBest : mat) (omega c1 c2 : double)
  (k : nat) (velocity : cube) : exec cube :=
  v <- slice velocity k ;;
  x <- slice particlePosition k ;;
  to_personal <- minus personalBest x ;;
  to_global <- minus globalBest x ;;
  cognitive <- schur (scale c1 r1) to_personal ;;
  social <- schur (scale c2 r2) to_global ;;
  s <- plus (scale omega v) cognitive ;;
  s' <- plus s social ;;
  set_slice velocity k s'.

Definition Update_as_specified (src : source) (drawn : nat)
  (particlePosition velocity : cube) (personalBest globalBest : mat)
  (omega c1 c2 : double) (populationSize : nat) : exec (cube * nat) :=
  let (r1, d1) :=
    randu src drawn (c_n_rows particlePosition) (c_n_cols particlePosition) in
  let (r2, d2) :=
    randu src d1 (c_n_rows particlePosition) (c_n_cols particlePosition) in
  v <- for_upto populationSize
         (update_particle_as_specified r1 r2 particlePosition personalBest
            globalBest omega c1 c2)
         velocity ;;
  Done (v, d2).

(* ------------------------------------------------------------------ *)
(** ** Shapes, runs and what is said of them *)

(** A cube of [d] slices of shape [r] by [c]. *)
Definition cube_of (r c d : nat) (q : cube) : Prop :=
  c_n_rows q = r /\ c_n_cols q = c /\ n_slices q = d /\
  Forall (has_shape r c) (slices q).

(** The shape invariant: both cubes hold one matrix of shape [r] by [c]
    per particle, and both best matrices have that shape. *)
Definition well_shaped (Fn : Type) (opt : PSOType) (r c : nat) (s : state Fn)
  : Prop :=
  cube_of r c (dimension opt) (particlePosition s) /\
  cube_of r c (dimension opt) (particleVelocity s) /\
  has_shape r c (bestParticlePosition s) /\
  has_shape r c (bestSwarmPosition s).

(** The variables as the loop first finds them, when there is at least
    one particle. *)
Definition initial_state (Fn : Type) (opt : PSOType) (fn : Fn) (it : mat)
  : state Fn :=
  {| iterate := it;
     particlePosition :=
       Cube (n_rows it) (n_cols it) (repeat it (dimension opt));
     particleVelocity :=
       Cube (n_rows it) (n_cols it) (repeat it (dimension opt));
     bestParticlePosition := it;
     bestSwarmPosition := it;
     currentObjective := None;
     lastObjectiveIndividual := DBL_MAX;
     lastObjectiveGlobal := DBL_MAX;
     function := fn;
     drawn := 0;
     evaluated := [];
     trajectory := [] |}.

Section Runs.

Variable Fn : Type.
Variable Evaluate : Fn -> mat -> double * Fn.
Context {velocityType : VelocityVectorType}.
Variable opt : PSOType.
Variable src : source.
Variable fn : Fn.
Variable it : mat.

(** [loop_head i s]: the loop of line 68 tests its condition for the
    [i+1]-th time with the variables as in [s] ([i] iterations ran and
    none returned). *)
Inductive loop_head : nat -> state Fn -> Prop :=
| head_first (s : state Fn) :
    initialize opt fn it = Done s -> loop_head 0 s
| head_next (i : nat) (s s' : state Fn) :
    loop_head i s -> i < maxIterations opt ->
    iteration Evaluate opt src s = Done (Next, s') ->
    loop_head (S i) s'.

End Runs.

(** What the particle loop leaves alone. *)
Definition same_swarm (Fn : Type) (s t : state Fn) : Prop :=
  iterate t = iterate s /\
  particlePosition t = particlePosition s /\
  particleVelocity t = particleVelocity s /\
  bestSwarmPosition t = bestSwarmPosition s /\
  lastObjectiveGlobal t = lastObjectiveGlobal s /\
  drawn t = drawn s /\
  trajectory t = trajectory s.

(** What holds each time the iteration loop tests its condition: both
    objective slots hold the same number, both position slots the same
    matrix, and no value evaluated so far compares below the slot. *)
Definition coincide (Fn : Type) (s : state Fn) : Prop :=
  lastObjectiveIndividual s = lastObjectiveGlobal s /\
  bestParticlePosition s = bestSwarmPosition s /\
  isnan (lastObjectiveGlobal s) = false /\
  (forall v, In v (evaluated s) -> lt v (lastObjectiveGlobal s) = false).

(** What holds inside the particle loop of an iteration that began with
    the swarm best [(g, bs)]: the individual slot is still [(g, bs)] or
    has gone strictly below [g]. *)
Definition tracking (Fn : Type) (g : double) (bs : mat) (t : state Fn)
  : Prop :=
  lastObjectiveGlobal t = g /\
  bestSwarmPosition t = bs /\
  isnan (lastObjectiveIndividual t) = false /\
  ((lastObjectiveIndividual t = g /\ bestParticlePosition t = bs) \/
   lt (lastObjectiveIndividual t) g = true) /\
  (forall v, In v (evaluated t) ->
             lt v (lastObjectiveIndividual t) = false).

(** The claim's bound, on the variables after a global-best update: the
    swarm-best objective is below or equal to every value evaluated. *)
Definition bounds_every_value (Fn : Type) (s : state Fn) : Prop :=
  forall v, In v (evaluated s) -> le (lastObjectiveGlobal s) v = true.

(** Among the values [ev] that a swarm of [d] particles evaluated, the
    last one of iteration [j] (counted from 1). *)
Definition last_evaluated_in (d : nat) (ev : list double) (j : nat)
  : option double :=
  nth_error ev (j * d - 1).

(** What the tolerance check makes of a run that returned [v] and left the
    variables [s], after [k] iterations that evaluated [dimension] values
    each: the last value of each iteration before the [k]-th was not below
    the tolerance; and either the last value of the [k]-th iteration is
    below the tolerance and is [v], or [k = maxIterations], no iteration's
    last value was below the tolerance, and [v] is the swarm-best
    objective. *)
Definition returned_as_checked (Fn : Type) (opt : PSOType) (v : double)
  (s : state Fn) : Prop :=
  let d := dimension opt in
  let k := length (trajectory s) in
  length (evaluated s) = k * d /\
  ((1 <= k <= maxIterations opt /\
    (forall j w, 1 <= j < k ->
       last_evaluated_in d (evaluated s) j = Some w ->
       lt w (tolerance opt) = false) /\
    last_evaluated_in d (evaluated s) k = Some v /\
    lt v (tolerance opt) = true)
   \/
   (k = maxIterations opt /\
    (forall j w, 1 <= j <= k ->
       last_evaluated_in d (evaluated s) j = Some w ->
       lt w (tolerance opt) = false) /\
    v = lastObjectiveGlobal s)).

(** Element [j] of the matrices [r1] and [r2] of one call: the same for
    every particle. *)
Definition r1_at (src : source) (drawn0 j : nat) : double :=
  src (drawn0 + j).
Definition r2_at (src : source) (drawn0 r c j : nat) : double :=
  src (drawn0 + r * c + j).

(** [m] is what lines 69-72 assign to slice [i] of the velocities: with
    [pb] and [gb] the elements number [i] of the two best matrices, every
    element [j] of [m] is
    [(w * v_j + (c1 * r1_j) * (pb - x_j)) + (c2 * r2_j) * (gb - x_j)]. *)
Definition new_velocity (src : source) (drawn0 r c : nat) (P V : cube)
  (bp bs : mat) (w c1 c2 : double) (i : nat) (m : mat) : Prop :=
  exists (v x : mat) (pb gb : double),
    nth_error (slices V) i = Some v /\
    nth_error (slices P) i = Some x /\
    nth_error (mem bp) i = Some pb /\
    nth_error (mem bs) i = Some gb /\
    has_shape r c m /\
    forall j, j < r * c ->
      exists vj xj,
        nth_error (mem v) j = Some vj /\
        nth_error (mem x) j = Some xj /\
        nth_error (mem m) j =
          Some (PrimFloat.add
                  (PrimFloat.add (PrimFloat.mul w vj)
                     (PrimFloat.mul (PrimFloat.mul c1 (r1_at src drawn0 j))
                        (PrimFloat.sub pb xj)))
                  (PrimFloat.mul (PrimFloat.mul c2 (r2_at src drawn0 r c j))
                     (PrimFloat.sub gb xj))).

(** The two sources yield the same draws from number [lo] up to number
    [hi], excluded. *)
Definition same_draws (src1 src2 : source) (lo hi : nat) : Prop :=
  forall j, lo <= j < hi -> src1 j = src2 j.

(** The order on (exponent, mantissa) pairs behind [SFcompare]. *)
Definition lex_lt (e1 : Z) (m1 : positive) (e2 : Z) (m2 : positive) : Prop :=
  (e1 < e2)%Z \/ (e1 = e2 /\ (m1 < m2)%positive).

(* ------------------------------------------------------------------ *)
(** ** Concrete swarms *)

(** The default coefficients of [PSOType::PSOType]: 0.9, 0.5, 0.3 and the
    tolerance 1e-5, as the doubles a C++ compiler makes of them. *)
Definition default_interiaWeight : double := 0x1.ccccccccccccdp-1%float.
Definition default_cognitiveAcceleration : double := 0.5%float.
Definition default_socialAcceleration : double := 0x1.3333333333333p-2%float.
Definition default_tolerance : double := 0x1.4f8b588e368f1p-17%float.

Definition default_PSO (dimension maxIterations : nat) : PSOType :=
  PSO dimension default_interiaWeight default_cognitiveAcceleration
    default_socialAcceleration maxIterations default_tolerance.

(** A random source that always draws 0.5. *)
Definition halves : source := fun _ => 0.5%float.

(** A source that draws 0.5 four times, and 0.25 ever after. *)
Definition halves_then_quarters : source :=
  fun j => if Nat.ltb j 4 then 0.5%float else 0.25%float.

(** The objective [f(x) = 10 - x[0]], without state. *)
Definition ten_minus_first (u : unit) (x : mat) : double * unit :=
  (PrimFloat.sub 10%float (hd PrimFloat.zero (mem x)), tt).

(** An objective that replays a list of values, one per call, whatever the
    position: its state is the list of the values still to come. *)
Definition replay (todo : list double) (x : mat) : double * list double :=
  (hd PrimFloat.zero todo, tl todo).

(** An objective that is NaN everywhere. *)
Definition always_nan (u : unit) (x : mat) : double * unit :=
  (PrimFloat.nan, tt).

Definition one_by_one (x : double) : mat := Mat 1 1 [x].

(** Two particles of shape 1 by 2, and three of the same shape. *)
Definition two_particles : cube :=
  Cube 1 2 [Mat 1 2 [1%float; 2%float]; Mat 1 2 [3%float; 4%float]].

Definition three_particles : cube :=
  Cube 1 2 [Mat 1 2 [1%float; 2%float]; Mat 1 2 [3%float; 4%float];
            Mat 1 2 [5%float; 6%float]].

Definition a_best : mat := Mat 1 2 [10%float; 20%float].

(** One particle at [(1, 2)], at rest. *)
Definition one_particle : cube := Cube 1 2 [Mat 1 2 [1%float; 2%float]].
Definition at_rest : cube := Cube 1 2 [Mat 1 2 [0%float; 0%float]].

(** Two particles of three rows and one column. *)
Definition two_columns : cube :=
  Cube 3 1 [Mat 3 1 [1%float; 2%float; 3%float];
            Mat 3 1 [4%float; 5%float; 6%float]].

Definition a_column : mat := Mat 3 1 [10%float; 20%float; 30%float].

(* ------------------------------------------------------------------ *)
(** ** Further notions on runs *)

(** [PSOType()] with every default argument of [pso.hpp]: ten particles,
    two hundred iterations. *)
Definition default_constructed : PSOType := default_PSO 10 200.

(** Every entry of a trajectory is a pair of cubes of [d] slices of shape
    [r] by [c]. *)
Definition shaped_trajectory (r c d : nat) (tr : list (cube * cube)) : Prop :=
  Forall (fun pv => cube_of r c d (fst pv) /\ cube_of r c d (snd pv)) tr.

(** [v] is a value that [Evaluate] returns, for some state of the function
    object and some position. *)
Definition from_objective (Fn : Type) (Evaluate : Fn -> mat -> double * Fn)
  (v : double) : Prop :=
  exists (f : Fn) (x : mat), v = fst (Evaluate f x).

(** [v] is [DBL_MAX], the value of the best slots before any improvement,
    or one of the values [ev]. *)
Definition initial_or_evaluated (ev : list double) (v : double) : Prop :=
  v = DBL_MAX \/ In v ev.

(** The value of the objective does not depend on the state of the
    function object. *)
Definition position_only (Fn : Type) (Evaluate : Fn -> mat -> double * Fn)
  : Prop :=
  forall (f f' : Fn) (x : mat), fst (Evaluate f x) = fst (Evaluate f' x).

(** Both best objectives are [DBL_MAX] or a value evaluated so far, and
    every value evaluated so far came out of [Evaluate]. *)
Definition tracked (Fn : Type) (Evaluate : Fn -> mat -> double * Fn)
  (s : state Fn) : Prop :=
  initial_or_evaluated (evaluated s) (lastObjectiveIndividual s) /\
  initial_or_evaluated (evaluated s) (lastObjectiveGlobal s) /\
  Forall (from_objective Evaluate) (evaluated s).

(** Each best objective is [DBL_MAX] or the value of the objective at the
    best position beside it. *)
Definition valued (Fn : Type) (Evaluate : Fn -> mat -> double * Fn) (fn : Fn)
  (s : state Fn) : Prop :=
  (lastObjectiveIndividual s = DBL_MAX \/
   fst (Evaluate fn (bestParticlePosition s)) = lastObjectiveIndividual s) /\
  (lastObjectiveGlobal s = DBL_MAX \/
   fst (Evaluate fn (bestSwarmPosition s)) = lastObjectiveGlobal s).

(** Element [k] (linear index) of slice [i] of a cube, if there is one. *)
Definition element (q : cube) (i k : nat) : option double :=
  match nth_error (slices q) i with
  | Some m => nth_error (mem m) k
  | None => None
  end.

(** What the statement of lines 224-227 of the older [Update] assigns to
    an element of the velocity of particle [i]: [vk] and [xk] are that
    element of the velocity and of the position, [pb] and [gb] the
    elements number [i] of the two best matrices, [n] the number of the
    first of its two draws. *)
Definition element_assigned (src : source) (w c1 c2 pb gb xk : double)
  (n : nat) (vk : double) : double :=
  PrimFloat.add
    (PrimFloat.add (PrimFloat.mul w vk)
       (PrimFloat.mul (PrimFloat.mul c1 (src n)) (PrimFloat.sub pb xk)))
    (PrimFloat.mul (PrimFloat.mul c2 (src (S n))) (PrimFloat.sub gb xk)).

(** The statement runs once per row on the same element: the element
    after [rows] rows, the draws of the first row starting at number [n],
    with [stride] draws per row. *)
Fixpoint element_after_rows (src : source) (w c1 c2 pb gb xk : double)
  (n stride rows : nat) (vk : double) : double :=
  match rows with
  | 0 => vk
  | S j =>
      element_assigned src w c1 c2 pb gb xk (n + stride * j)
        (element_after_rows src w c1 c2 pb gb xk n stride j vk)
  end.

(** [V'] holds for particle [i] what the loops of lines 220-229 leave: with
    [pb] and [gb] the elements number [i] of the two best matrices, every
    element [k < c] of its velocity has been assigned [r] times, and the
    elements from [c] on are those of [V]. *)
Definition element_loop_velocity (src : source) (drawn0 r c : nat)
  (P V : cube) (bp bs : mat) (w c1 c2 : double) (i : nat) (V' : cube)
  : Prop :=
  exists pb gb : double,
    nth_error (mem bp) i = Some pb /\
    nth_error (mem bs) i = Some gb /\
    (forall k, k < c ->
       exists vk xk,
         element V i k = Some vk /\
         element P i k = Some xk /\
         element V' i k =
           Some (element_after_rows src w c1 c2 pb gb xk
                   (drawn0 + i * (2 * (r * c)) + 2 * k) (2 * c) r vk)) /\
    (forall k, c <= k -> element V' i k = element V i k).

(** Two particles whose positions have no element. *)
Definition no_element : mat := Mat 0 0 [].
Definition two_empty_particles : cube := Cube 0 0 [no_element; no_element].

(** The positions a trajectory ends on, from the positions [p] it starts
    from. *)
Fixpoint position_after (p : cube) (tr : list (cube * cube)) : cube :=
  match tr with
  | [] => p
  | (p', _) :: tr' => position_after p' tr'
  end.

(** Every entry of the trajectory holds the positions of the entry before,
    [p] for the first, plus its own velocities. *)
Fixpoint moved_by_velocities (p : cube) (tr : list (cube * cube)) : Prop :=
  match tr with
  | [] => True
  | (p', v') :: tr' => cube_plus p v' = Done p' /\ moved_by_velocities p' tr'
  end.

(* ================================================================== *)
(** * Proofs *)

(* ------------------------------------------------------------------ *)
(** ** The order of doubles *)

(** Order facts on the specification floats, transported to [double]
    below.  The comparison is lexicographic on sign, exponent, mantissa. *)
Section SpecOrder.

Local Open Scope Z_scope.

Lemma compare_cont_Eq_refl (m : positive) : Pos.compare_cont Eq m m = Eq.
Proof. exact (Pos.compare_refl m). Qed.

Lemma SFcompare_antisym (x y : spec_float) :
  SFcompare y x = option_map CompOpp (SFcompare x y).
Proof.
  destruct x as [sx|sx| |sx mx ex], y as [sy|sy| |sy my ey]; simpl;
    try reflexivity;
    try (destruct sx; reflexivity);
    try (destruct sy; reflexivity);
    try (destruct sx, sy; reflexivity).
  f_equal.
  change (Pos.compare_cont Eq my mx) with (Pos.compare my mx).
  change (Pos.compare_cont Eq mx my) with (Pos.compare mx my).
  rewrite (Z.compare_antisym ex ey), (Pos.compare_antisym mx my).
  destruct sx, sy; simpl; try reflexivity;
    destruct (ex ?= ey); simpl; try reflexivity;
    destruct (Pos.compare mx my); reflexivity.
Qed.

Lemma SFltb_SFleb (x y : spec_float) : SFltb x y = true -> SFleb x y = true.
Proof.
  unfold SFltb, SFleb. destruct (SFcompare x y) as [[]|]; congruence.
Qed.

Lemma SFltb_not_nan (x y : spec_float) :
  SFltb x y = true -> x <> S754_nan /\ y <> S754_nan.
Proof.
  unfold SFltb. destruct x, y; simpl; try discriminate; split; discriminate.
Qed.

Lemma SFleb_refl (x : spec_float) : x <> S754_nan -> SFleb x x = true.
Proof.
  unfold SFleb. destruct x as [s|s| |s m e]; simpl; intros H;
    try reflexivity; try congruence.
  - destruct s; reflexivity.
  - rewrite Z.compare_refl, compare_cont_Eq_refl. destruct s; reflexivity.
Qed.

Lemma SFltb_false_SFleb (x y : spec_float) :
  x <> S754_nan -> y <> S754_nan -> SFltb x y = false -> SFleb y x = true.
Proof.
  intros Hx Hy. unfold SFltb, SFleb. rewrite (SFcompare_antisym x y).
  destruct x, y; try congruence; simpl;
    repeat match goal with
           | |- context [match ?c with _ => _ end] => destruct c; simpl
           end; congruence.
Qed.

Lemma lex_lt_trans e1 m1 e2 m2 e3 m3 :
  lex_lt e1 m1 e2 m2 -> lex_lt e2 m2 e3 m3 -> lex_lt e1 m1 e3 m3.
Proof. unfold lex_lt. lia. Qed.

Lemma finite_pos_lt e1 m1 e2 m2 :
  SFltb (S754_finite false m1 e1) (S754_finite false m2 e2) = true
  <-> lex_lt e1 m1 e2 m2.
Proof.
  unfold SFltb, lex_lt; simpl.
  change (Pos.compare_cont Eq m1 m2) with (Pos.compare m1 m2).
  destruct (Z.compare_spec e1 e2); destruct (Pos.compare_spec m1 m2);
    split; intros; try reflexivity; try discriminate; lia.
Qed.

Lemma finite_neg_lt e1 m1 e2 m2 :
  SFltb (S754_finite true m1 e1) (S754_finite true m2 e2) = true
  <-> lex_lt e2 m2 e1 m1.
Proof.
  unfold SFltb, lex_lt; simpl.
  change (Pos.compare_cont Eq m1 m2) with (Pos.compare m1 m2).
  destruct (Z.compare_spec e1 e2); destruct (Pos.compare_spec m1 m2);
    simpl; split; intros; try reflexivity; try discriminate; lia.
Qed.

Lemma SFltb_trans (x y z : spec_float) :
  SFltb x y = true -> SFltb y z = true -> SFltb x z = true.
Proof.
  destruct x as [sx|sx| |sx mx ex], y as [sy|sy| |sy my ey],
           z as [sz|sz| |sz mz ez];
    try (unfold SFltb; simpl; discriminate);
    try (unfold SFltb; simpl;
         repeat match goal with b : bool |- _ => destruct b end;
         simpl; congruence).
  destruct sx, sy, sz;
    try (unfold SFltb; simpl; congruence);
    try (intros _ _; reflexivity).
  - rewrite !finite_neg_lt. intros H1 H2. exact (lex_lt_trans H2 H1).
  - rewrite !finite_pos_lt. apply lex_lt_trans.
Qed.

Lemma SFltb_irrefl (x : spec_float) : SFltb x x = false.
Proof.
  unfold SFltb. pose proof (SFcompare_antisym x x) as H.
  destruct (SFcompare x x) as [[]|]; try reflexivity. discriminate.
Qed.

End SpecOrder.

(** The same facts on [double], through the specification of the
    primitive comparisons. *)
Section DoubleOrder.

Lemma SFeqb_refl (x : spec_float) : x <> S754_nan -> SFeqb x x = true.
Proof.
  unfold SFeqb. destruct x as [s|s| |s m e]; simpl; intros H;
    try reflexivity; try congruence.
  - destruct s; reflexivity.
  - rewrite Z.compare_refl, compare_cont_Eq_refl. destruct s; reflexivity.
Qed.

Lemma isnan_spec (x : double) : isnan x = false <-> Prim2SF x <> S754_nan.
Proof.
  unfold isnan, is_nan. rewrite eqb_spec. split.
  - intros H E. rewrite E in H. discriminate.
  - intros H. rewrite (SFeqb_refl H). reflexivity.
Qed.

Lemma lt_trans (x y z : double) :
  lt x y = true -> lt y z = true -> lt x z = true.
Proof. unfold lt. rewrite !ltb_spec. apply SFltb_trans. Qed.

Lemma lt_le (x y : double) : lt x y = true -> le x y = true.
Proof. unfold lt, le. rewrite ltb_spec, leb_spec. apply SFltb_SFleb. Qed.

Lemma lt_not_nan_l (x y : double) : lt x y = true -> isnan x = false.
Proof.
  unfold lt. rewrite ltb_spec, isnan_spec. intros H.
  exact (proj1 (SFltb_not_nan _ _ H)).
Qed.

Lemma le_refl (x : double) : isnan x = false -> le x x = true.
Proof. unfold le. rewrite leb_spec, isnan_spec. apply SFleb_refl. Qed.

Lemma lt_false_le (x y : double) :
  isnan x = false -> isnan y = false -> lt x y = false -> le y x = true.
Proof.
  unfold lt, le. rewrite ltb_spec, leb_spec, !isnan_spec.
  apply SFltb_false_SFleb.
Qed.

Lemma lt_irrefl (x : double) : lt x x = false.
Proof. unfold lt. rewrite ltb_spec. apply SFltb_irrefl. Qed.

End DoubleOrder.

(* ------------------------------------------------------------------ *)
(** ** Reasoning about executions *)

Lemma bind_Done {A B : Type} (e : exec A) (k : A -> exec B) (b : B) :
  bind e k = Done b -> exists a, e = Done a /\ k a = Done b.
Proof. destruct e as [a|f]; simpl; [eauto | discriminate]. Qed.

(** Splits every successful [bind] among the hypotheses. *)
Ltac exec_inv :=
  repeat match goal with
         | H : bind _ _ = Done _ |- _ =>
             let a := fresh "a" in
             let Ha := fresh "Ha" in
             apply bind_Done in H; destruct H as (a & Ha & H)
         | H : Done _ = Done _ |- _ => injection H as H; subst
         | H : Undefined _ = Done _ |- _ => discriminate H
         end.

Section Loops.

Variable St : Type.
Variable body : nat -> St -> exec St.

(** A loop invariant, for the runs that end. *)
Lemma for_range_invariant (P : nat -> St -> Prop) (n lo : nat) (s s' : St) :
  (forall i t t', lo <= i < lo + n -> P i t -> body i t = Done t' ->
                  P (S i) t') ->
  P lo s -> for_range lo n body s = Done s' -> P (lo + n) s'.
Proof.
  revert lo s. induction n as [|n IH]; intros lo s Hstep H0 Hrun; simpl in Hrun.
  - injection Hrun as <-. now rewrite Nat.add_0_r.
  - exec_inv. rewrite <- Nat.add_succ_comm. apply (IH (S lo) a).
    + intros i t t' Hi. apply Hstep. lia.
    + apply (Hstep lo s a); [lia | assumption | assumption].
    + assumption.
Qed.

(** A loop invariant that also keeps the loop defined. *)
Lemma for_range_defined (P : nat -> St -> Prop) (n lo : nat) (s : St) :
  (forall i t, lo <= i < lo + n -> P i t ->
               exists t', body i t = Done t' /\ P (S i) t') ->
  P lo s -> exists s', for_range lo n body s = Done s' /\ P (lo + n) s'.
Proof.
  revert lo s. induction n as [|n IH]; intros lo s Hstep H0; simpl.
  - exists s. now rewrite Nat.add_0_r.
  - destruct (Hstep lo s) as (t' & -> & Ht'); [lia | assumption |].
    simpl. rewrite <- Nat.add_succ_comm. apply IH; [|assumption].
    intros i t Hi. apply Hstep. lia.
Qed.

Lemma for_range_app (n m lo : nat) (s : St) :
  for_range lo (n + m) body s =
  (s' <- for_range lo n body s ;; for_range (lo + n) m body s').
Proof.
  revert lo s. induction n as [|n IH]; intros lo s.
  - simpl. now rewrite Nat.add_0_r.
  - cbn [Nat.add for_range]. destruct (body lo s) as [t|f]; cbn [bind];
      [|reflexivity].
    rewrite IH. now rewrite Nat.add_succ_comm.
Qed.

Lemma for_range_first (n lo : nat) (s : St) :
  1 <= n ->
  for_range lo n body s =
  (s' <- body lo s ;; for_range (S lo) (n - 1) body s').
Proof.
  destruct n as [|n]; [lia|]. intros _.
  replace (S n - 1) with n by lia. reflexivity.
Qed.

End Loops.

Lemma for_range_skip (St : Type) (n lo : nat) (s : St) :
  for_range lo n (fun _ t => Done t) s = Done s.
Proof.
  revert lo. induction n as [|n IH]; intros lo; [reflexivity|].
  cbn [for_range bind]. apply IH.
Qed.

(** *** Containers *)

Lemma replace_nth_repeat (a b m : mat) (i : nat) (l : list mat) :
  replace_nth (repeat a i ++ b :: l) i m = repeat a i ++ m :: l.
Proof. induction i as [|i IH]; simpl; [reflexivity | now rewrite IH]. Qed.

Lemma replace_nth_length (l : list mat) (i : nat) (m : mat) :
  length (replace_nth l i m) = length l.
Proof.
  revert i. induction l as [|x l IH]; intros [|i]; simpl; auto.
Qed.

Lemma nth_error_replace_nth (l : list mat) (i j : nat) (m : mat) :
  i < length l ->
  nth_error (replace_nth l i m) j =
  if Nat.eqb j i then Some m else nth_error l j.
Proof.
  revert i j. induction l as [|x l IH]; intros i j Hi; simpl in Hi; [lia|].
  destruct i as [|i], j as [|j]; simpl; try reflexivity.
  apply IH. lia.
Qed.

Lemma Forall_replace_nth (P : mat -> Prop) (l : list mat) (i : nat) (m : mat) :
  Forall P l -> P m -> Forall P (replace_nth l i m).
Proof.
  intros Hl Hm. revert i. induction Hl as [|x l Hx Hl IH]; intros [|i]; simpl;
    constructor; auto.
Qed.

Lemma same_shape_true (a b : mat) :
  same_shape a b = true <-> n_rows a = n_rows b /\ n_cols a = n_cols b.
Proof.
  unfold same_shape. rewrite andb_true_iff, !Nat.eqb_eq. reflexivity.
Qed.

Lemma zip_with_length (f : double -> double -> double) (a b : list double) :
  length a = length b -> length (zip_with f a b) = length a.
Proof.
  revert b. induction a as [|x a IH]; intros [|y b] H; simpl in *;
    try reflexivity; try discriminate.
  f_equal. apply IH. lia.
Qed.

Lemma elementwise_shape (f : double -> double -> double) (r c : nat)
  (a b : mat) :
  has_shape r c a -> has_shape r c b ->
  exists m, elementwise f a b = Done m /\ has_shape r c m /\
            mem m = zip_with f (mem a) (mem b).
Proof.
  intros (Ha1 & Ha2 & Ha3) (Hb1 & Hb2 & Hb3). unfold elementwise.
  replace (same_shape a b) with true
    by (symmetry; apply same_shape_true; lia).
  eexists. split; [reflexivity|]. split; [|reflexivity].
  unfold has_shape, mat_ok, n_elem in *. simpl.
  rewrite zip_with_length; [lia|]. rewrite Ha3, Hb3. lia.
Qed.

Lemma scale_shape (r c : nat) (k : double) (m : mat) :
  has_shape r c m -> has_shape r c (scale k m).
Proof.
  unfold has_shape, mat_ok, n_elem, scale. simpl. now rewrite length_map.
Qed.

Lemma scalar_minus_shape (r c : nat) (k : double) (m : mat) :
  has_shape r c m -> has_shape r c (scalar_minus k m).
Proof.
  unfold has_shape, mat_ok, n_elem, scalar_minus. simpl.
  now rewrite length_map.
Qed.

Lemma randu_shape (src : source) (d r c : nat) :
  has_shape r c (fst (randu src d r c)).
Proof.
  unfold has_shape, mat_ok, n_elem, randu. simpl.
  now rewrite length_map, length_seq.
Qed.

(** Two cubes of the same shape and slice count add up. *)
Lemma zip_slices_defined (r c : nat) (a b : list mat) :
  Forall (has_shape r c) a -> Forall (has_shape r c) b ->
  length a = length b ->
  exists s, zip_slices a b = Done s /\ Forall (has_shape r c) s /\
            length s = length a.
Proof.
  intros Ha. revert b. induction Ha as [|x a Hx Ha IH]; intros b Hb Hlen.
  - destruct b; [|discriminate]. exists []. simpl. auto.
  - destruct Hb as [|y b Hy Hb]; [discriminate|]. simpl in Hlen.
    destruct (IH b Hb) as (s & Hs & Hfs & Hls); [lia|].
    destruct (elementwise_shape PrimFloat.add Hx Hy) as (m & Hm & Hsm & _).
    exists (m :: s). simpl. unfold plus. rewrite Hm. simpl. rewrite Hs. simpl.
    split; [reflexivity|]. split; [constructor; assumption | lia].
Qed.

(* ------------------------------------------------------------------ *)
(** ** Initialization (lines 47-65) *)

Lemma repeat_app_cons (a : mat) (i : nat) (l : list mat) :
  repeat a i ++ a :: l = repeat a (S i) ++ l.
Proof. induction i as [|i IH]; simpl; [reflexivity | now rewrite IH]. Qed.

Lemma fill_slices_run (it z : mat) (r c n lo : nat) :
  n_rows it = r -> n_cols it = c ->
  for_range lo n (fill_slices it)
    (Cube r c (repeat it lo ++ repeat z n),
     Cube r c (repeat it lo ++ repeat z n))
  = Done (Cube r c (repeat it (lo + n)), Cube r c (repeat it (lo + n))).
Proof.
  intros Hr Hc. revert lo. induction n as [|n IH]; intros lo.
  - simpl. now rewrite app_nil_r, Nat.add_0_r.
  - cbn [for_range repeat]. unfold fill_slices at 1. cbn [fst snd].
    unfold set_slice, n_slices. cbn [slices c_n_rows c_n_cols].
    replace (lo <? length (repeat it lo ++ z :: repeat z n)) with true.
    2:{ symmetry. apply Nat.ltb_lt. rewrite length_app, repeat_length.
        simpl. lia. }
    rewrite Hr, Hc, !Nat.eqb_refl. cbn [andb bind].
    rewrite replace_nth_repeat, repeat_app_cons, IH.
    now rewrite Nat.add_succ_comm.
Qed.

Section Initialization.

Variable Fn : Type.
Variable opt : PSOType.

Lemma initialize_defined (fn : Fn) (it : mat) :
  1 <= dimension opt -> initialize opt fn it = Done (initial_state opt fn it).
Proof.
  intros Hd. unfold initialize, initial_state, for_upto, set_size.
  pose proof (fill_slices_run it
                (Mat (n_rows it) (n_cols it)
                   (repeat PrimFloat.zero (n_rows it * n_cols it)))
                (dimension opt) 0 eq_refl eq_refl) as Hfill.
  cbn [repeat app Nat.add] in Hfill. rewrite Hfill.
  cbn [bind fst snd]. unfold slice. cbn [slices].
  destruct (dimension opt) as [|d] eqn:E; [lia|]. reflexivity.
Qed.

Lemma initialize_no_particle (fn : Fn) (it : mat) :
  dimension opt = 0 -> initialize opt fn it = Undefined SliceOutOfBounds.
Proof. intros Hd. unfold initialize. rewrite Hd. reflexivity. Qed.

End Initialization.

(* ------------------------------------------------------------------ *)
(** ** The steps of one iteration, for any velocity policy *)

Section Steps.

Variable Fn : Type.
Variable Evaluate : Fn -> mat -> double * Fn.
Context {velocityType : VelocityVectorType}.
Variable opt : PSOType.
Variable src : source.

Lemma evaluate_particle_Done (k : nat) (s s' : state Fn) :
  evaluate_particle Evaluate k s = Done s' ->
  exists x,
    slice (particlePosition s) k = Done x /\
    let v := fst (Evaluate (function s) x) in
    let improves := lt v (lastObjectiveIndividual s) in
    s' = {| iterate := iterate s;
            particlePosition := particlePosition s;
            particleVelocity := particleVelocity s;
            bestParticlePosition :=
              if improves then x else bestParticlePosition s;
            bestSwarmPosition := bestSwarmPosition s;
            currentObjective := Some v;
            lastObjectiveIndividual :=
              if improves then v else lastObjectiveIndividual s;
            lastObjectiveGlobal := lastObjectiveGlobal s;
            function := snd (Evaluate (function s) x);
            drawn := drawn s;
            evaluated := evaluated s ++ [v];
            trajectory := trajectory s |}.
Proof.
  unfold evaluate_particle. intros H. exec_inv. exists a. split; [assumption|].
  destruct (Evaluate (function s) a) as [v fn']. simpl.
  now injection H as <-.
Qed.

Lemma evaluate_swarm_frame (s s' : state Fn) :
  evaluate_swarm Evaluate opt s = Done s' ->
  same_swarm s s' /\
  exists vs, evaluated s' = evaluated s ++ vs /\
             length vs = dimension opt /\
             (1 <= dimension opt ->
              currentObjective s' = Some (last vs PrimFloat.zero)).
Proof.
  unfold evaluate_swarm, for_upto. intros H.
  apply (@for_range_invariant _ _
           (fun i t => same_swarm s t /\
              exists vs, evaluated t = evaluated s ++ vs /\ length vs = i /\
                         (1 <= i ->
                          currentObjective t = Some (last vs PrimFloat.zero))))
    in H; [exact H | |].
  - intros i t t' _ (Hsame & vs & Hev & Hlen & Hcur) Hstep.
    apply evaluate_particle_Done in Hstep. destruct Hstep as (x & _ & ->).
    unfold same_swarm in *. cbn -[last]. split; [tauto|].
    exists (vs ++ [fst (Evaluate (function t) x)]).
    rewrite Hev, app_assoc, length_app, last_last. simpl.
    repeat split; [lia].
  - split; [unfold same_swarm; tauto|]. exists []. rewrite app_nil_r.
    repeat split. lia.
Qed.

Lemma update_bests_Done (s s' : state Fn) :
  update_bests Evaluate opt s = Done s' ->
  exists s1, evaluate_swarm Evaluate opt s = Done s1 /\ s' = update_global s1.
Proof. unfold update_bests. intros H. exec_inv. eauto. Qed.

Lemma update_velocity_Done (s s' : state Fn) :
  update_velocity opt src s = Done s' ->
  exists v d,
    Update src (drawn s) (particlePosition s) (particleVelocity s)
      (bestParticlePosition s) (bestSwarmPosition s)
      (interiaWeight opt) (cognitiveAcceleration opt)
      (socialAcceleration opt) (dimension opt) = Done (v, d) /\
    s' = {| iterate := iterate s;
            particlePosition := particlePosition s;
            particleVelocity := v;
            bestParticlePosition := bestParticlePosition s;
            bestSwarmPosition := bestSwarmPosition s;
            currentObjective := currentObjective s;
            lastObjectiveIndividual := lastObjectiveIndividual s;
            lastObjectiveGlobal := lastObjectiveGlobal s;
            function := function s;
            drawn := d;
            evaluated := evaluated s;
            trajectory := trajectory s |}.
Proof.
  unfold update_velocity. intros H. exec_inv. destruct a as [v d].
  exists v, d. split; [assumption | reflexivity].
Qed.

Lemma update_position_Done (s s' : state Fn) :
  update_position s = Done s' ->
  exists p,
    cube_plus (particlePosition s) (particleVelocity s) = Done p /\
    s' = {| iterate := iterate s;
            particlePosition := p;
            particleVelocity := particleVelocity s;
            bestParticlePosition := bestParticlePosition s;
            bestSwarmPosition := bestSwarmPosition s;
            currentObjective := currentObjective s;
            lastObjectiveIndividual := lastObjectiveIndividual s;
            lastObjectiveGlobal := lastObjectiveGlobal s;
            function := function s;
            drawn := drawn s;
            evaluated := evaluated s;
            trajectory := trajectory s ++ [(p, particleVelocity s)] |}.
Proof. unfold update_position. intros H. exec_inv. eauto. Qed.

(** One iteration, taken apart. *)
Lemma iteration_Done (s s' : state Fn) (c : control) :
  iteration Evaluate opt src s = Done (c, s') ->
  exists s1 s2,
    update_bests Evaluate opt s = Done s1 /\
    update_velocity opt src s1 = Done s2 /\
    update_position s2 = Done s' /\
    check_tolerance opt s' = Done c.
Proof. unfold iteration. intros H. exec_inv. eauto 6. Qed.

(** The fields an iteration's last three steps keep, and the way the
    first two change the others. *)
Lemma iteration_frame (s s' : state Fn) (c : control) :
  iteration Evaluate opt src s = Done (c, s') ->
  exists s1,
    update_bests Evaluate opt s = Done s1 /\
    iterate s' = iterate s /\
    bestParticlePosition s' = bestParticlePosition s1 /\
    bestSwarmPosition s' = bestSwarmPosition s1 /\
    currentObjective s' = currentObjective s1 /\
    lastObjectiveIndividual s' = lastObjectiveIndividual s1 /\
    lastObjectiveGlobal s' = lastObjectiveGlobal s1 /\
    evaluated s' = evaluated s1 /\
    length (trajectory s') = S (length (trajectory s)).
Proof.
  intros H. apply iteration_Done in H.
  destruct H as (s1 & s2 & H1 & H2 & H3 & _). exists s1.
  split; [assumption|].
  apply update_velocity_Done in H2. destruct H2 as (v & d & _ & ->).
  apply update_position_Done in H3. destruct H3 as (p & _ & ->).
  apply update_bests_Done in H1. destruct H1 as (t & Ht & ->).
  apply evaluate_swarm_frame in Ht. destruct Ht as (Hs & _).
  destruct Hs as (Hit & _ & _ & _ & _ & _ & Htr). simpl.
  rewrite length_app, Htr, Hit. simpl. repeat split. lia.
Qed.

End Steps.

(* ------------------------------------------------------------------ *)
(** ** Best tracking (lines 64-65 and 76-88) *)

Section Bests.

Variable Fn : Type.
Variable Evaluate : Fn -> mat -> double * Fn.
Context {velocityType : VelocityVectorType}.
Variable opt : PSOType.
Variable src : source.

Lemma coincide_tracking (s : state Fn) :
  coincide s -> tracking (lastObjectiveGlobal s) (bestSwarmPosition s) s.
Proof.
  intros (Hobj & Hpos & Hnan & Hev). unfold tracking.
  rewrite Hobj. repeat split; auto.
Qed.

Lemma evaluate_particle_tracking (g : double) (bs : mat) (k : nat)
  (t t' : state Fn) :
  tracking g bs t -> evaluate_particle Evaluate k t = Done t' ->
  tracking g bs t'.
Proof.
  intros (Hg & Hbs & Hnan & Hcase & Hev) Hstep.
  apply evaluate_particle_Done in Hstep. destruct Hstep as (x & _ & ->).
  cbv zeta. set (v := fst (Evaluate (function t) x)).
  unfold tracking. cbn [lastObjectiveGlobal bestSwarmPosition
    lastObjectiveIndividual bestParticlePosition evaluated].
  destruct (lt v (lastObjectiveIndividual t)) eqn:Hlt.
  - repeat split; try assumption.
    + exact (lt_not_nan_l Hlt).
    + right. destruct Hcase as [[<- _]|Hlow]; [assumption|].
      exact (lt_trans Hlt Hlow).
    + intros w Hw. apply in_app_or in Hw. destruct Hw as [Hw|[<-|[]]].
      * destruct (lt w v) eqn:Hwv; [|reflexivity].
        rewrite <- (Hev w Hw). symmetry. exact (lt_trans Hwv Hlt).
      * apply lt_irrefl.
  - repeat split; try assumption.
    intros w Hw. apply in_app_or in Hw. destruct Hw as [Hw|[<-|[]]]; auto.
Qed.

Lemma evaluate_swarm_tracking (g : double) (bs : mat) (s s' : state Fn) :
  tracking g bs s -> evaluate_swarm Evaluate opt s = Done s' ->
  tracking g bs s'.
Proof.
  unfold evaluate_swarm, for_upto. intros H0 H.
  apply (@for_range_invariant _ _ (fun _ t => tracking g bs t)) in H;
    [exact H | | exact H0].
  intros i t t' _. apply evaluate_particle_tracking.
Qed.

Lemma update_global_coincide (g : double) (bs : mat) (t : state Fn) :
  tracking g bs t ->
  coincide (update_global t) /\
  (lastObjectiveGlobal (update_global t) = g \/
   lt (lastObjectiveGlobal (update_global t)) g = true).
Proof.
  intros (Hg & Hbs & Hnan & Hcase & Hev). unfold coincide, update_global.
  cbn [lastObjectiveGlobal bestSwarmPosition lastObjectiveIndividual
         bestParticlePosition evaluated].
  rewrite Hg.
  destruct (lt (lastObjectiveIndividual t) g) eqn:Hlt.
  - repeat split; auto.
  - destruct Hcase as [[Hobj Hpos]|Hlow]; [|congruence].
    rewrite Hbs, <- Hobj. repeat split; auto.
Qed.

Lemma update_bests_coincide (s s1 : state Fn) :
  coincide s -> update_bests Evaluate opt s = Done s1 ->
  coincide s1 /\
  (lastObjectiveGlobal s1 = lastObjectiveGlobal s \/
   lt (lastObjectiveGlobal s1) (lastObjectiveGlobal s) = true).
Proof.
  intros Hs H. apply update_bests_Done in H. destruct H as (t & Ht & ->).
  apply update_global_coincide with (bs := bestSwarmPosition s).
  apply evaluate_swarm_tracking with (s := s); [|assumption].
  now apply coincide_tracking.
Qed.

Lemma iteration_coincide (s s' : state Fn) (c : control) :
  coincide s -> iteration Evaluate opt src s = Done (c, s') -> coincide s'.
Proof.
  intros Hs H. apply iteration_frame in H.
  destruct H as (s1 & H1 & _ & Hbp & Hbs & _ & Hind & Hglob & Hev & _).
  destruct (update_bests_coincide Hs H1) as [(A & B & C & D) _].
  unfold coincide. rewrite Hbp, Hbs, Hind, Hglob, Hev. auto.
Qed.

Variable fn : Fn.
Variable it : mat.

Lemma initialize_coincide (s : state Fn) :
  initialize opt fn it = Done s -> coincide s.
Proof.
  unfold initialize. intros H. exec_inv. unfold coincide. simpl.
  repeat split; try congruence. intros v [].
Qed.

Lemma loop_head_coincide (i : nat) (s : state Fn) :
  loop_head Evaluate opt src fn it i s -> coincide s.
Proof.
  induction 1 as [s H|i s s' _ IH _ H].
  - now apply initialize_coincide.
  - exact (iteration_coincide IH H).
Qed.

End Bests.

(* ------------------------------------------------------------------ *)
(** ** [InertiaWeight::Update] on well-shaped swarms *)

Lemma nth_error_zip_with (f : double -> double -> double) (a b : list double)
  (j : nat) :
  nth_error (zip_with f a b) j =
  match nth_error a j, nth_error b j with
  | Some x, Some y => Some (f x y)
  | _, _ => None
  end.
Proof.
  revert b j. induction a as [|x a IH]; intros [|y b] [|j]; simpl;
    try reflexivity.
  - destruct (nth_error a j); reflexivity.
  - apply IH.
Qed.

Lemma nth_error_in_bounds (A : Type) (l : list A) (j : nat) :
  j < length l -> exists x, nth_error l j = Some x.
Proof.
  intros H. destruct (nth_error l j) as [x|] eqn:E; [eauto|].
  apply nth_error_None in E. lia.
Qed.

Lemma slice_cube_of (r c d i : nat) (q : cube) :
  cube_of r c d q -> i < d ->
  exists m, nth_error (slices q) i = Some m /\ slice q i = Done m /\
            has_shape r c m.
Proof.
  intros (_ & _ & Hd & Hall) Hi. unfold n_slices in Hd.
  destruct (@nth_error_in_bounds _ (slices q) i) as (m & Hm); [lia|].
  exists m. unfold slice. rewrite Hm.
  split; [reflexivity|]. split; [reflexivity|].
  rewrite Forall_forall in Hall. apply Hall. eapply nth_error_In, Hm.
Qed.

Lemma at_in_bounds (r c i : nat) (m : mat) :
  has_shape r c m -> i < r * c ->
  exists x, nth_error (mem m) i = Some x /\ at_ m i = Done x.
Proof.
  intros (Hr & Hc & Hok) Hi. unfold mat_ok, n_elem in Hok.
  destruct (@nth_error_in_bounds _ (mem m) i) as (x & Hx).
  { rewrite Hok, Hr, Hc. exact Hi. }
  exists x. unfold at_. now rewrite Hx.
Qed.

Lemma at_out_of_bounds (r c i : nat) (m : mat) :
  has_shape r c m -> r * c <= i -> at_ m i = Undefined ElementOutOfBounds.
Proof.
  intros (Hr & Hc & Hok) Hi. unfold mat_ok, n_elem in Hok. unfold at_.
  replace (nth_error (mem m) i) with (@None double); [reflexivity|].
  symmetry. apply nth_error_None. rewrite Hok, Hr, Hc. exact Hi.
Qed.

Lemma set_slice_cube_of (r c d i : nat) (q : cube) (m : mat) :
  cube_of r c d q -> i < d -> has_shape r c m ->
  set_slice q i m = Done (Cube r c (replace_nth (slices q) i m)) /\
  cube_of r c d (Cube r c (replace_nth (slices q) i m)).
Proof.
  intros (Hr & Hc & Hd & Hall) Hi (Hmr & Hmc & Hok). unfold set_slice.
  replace (i <? n_slices q) with true by (symmetry; apply Nat.ltb_lt; lia).
  rewrite Hr, Hc, Hmr, Hmc, !Nat.eqb_refl. split; [reflexivity|].
  unfold cube_of, n_slices. simpl. rewrite replace_nth_length.
  repeat split; try assumption.
  apply Forall_replace_nth; [assumption | repeat split; assumption].
Qed.

Lemma cube_plus_cube_of (r c d : nat) (a b : cube) :
  cube_of r c d a -> cube_of r c d b ->
  exists p, cube_plus a b = Done p /\ cube_of r c d p.
Proof.
  intros (Har & Hac & Had & Ha) (Hbr & Hbc & Hbd & Hb). unfold cube_plus.
  rewrite Har, Hac, Hbr, Hbc, !Nat.eqb_refl. cbn [andb].
  unfold n_slices in *.
  destruct (zip_slices_defined Ha Hb) as (s & -> & Hs & Hlen); [lia|].
  eexists. split; [reflexivity|]. unfold cube_of, n_slices. simpl.
  repeat split; [lia | assumption].
Qed.

Section InertiaWeightUpdate.

Variable src : source.
Variable drawn0 : nat.
Variables r c d : nat.
Variables P V : cube.
Variables bp bs : mat.
Variables w c1 c2 : double.

Hypothesis P_shape : cube_of r c d P.
Hypothesis V_shape : cube_of r c d V.
Hypothesis bp_shape : has_shape r c bp.
Hypothesis bs_shape : has_shape r c bs.

Local Abbreviation velocity_of :=
  (new_velocity src drawn0 r c P V bp bs w c1 c2).
Local Abbreviation r1_j := (r1_at src drawn0).
Local Abbreviation r2_j := (r2_at src drawn0 r c).

Let R1 : mat := fst (randu src drawn0 r c).
Let R2 : mat := fst (randu src (drawn0 + r * c) r c).

Lemma R1_at (j : nat) : j < r * c -> nth_error (mem R1) j = Some (r1_j j).
Proof.
  intros Hj. unfold R1, randu, r1_at. simpl.
  rewrite nth_error_map, nth_error_seq.
  replace (j <? r * c) with true by (symmetry; now apply Nat.ltb_lt).
  reflexivity.
Qed.

Lemma R2_at (j : nat) : j < r * c -> nth_error (mem R2) j = Some (r2_j j).
Proof.
  intros Hj. unfold R2, randu, r2_at. simpl.
  rewrite nth_error_map, nth_error_seq.
  replace (j <? r * c) with true by (symmetry; now apply Nat.ltb_lt).
  reflexivity.
Qed.

(** One particle, with the velocities [Vt] of the moment: slice [i] of
    [Vt] is still the one the call received. *)
Lemma update_particle_in_bounds (i : nat) (Vt : cube) :
  cube_of r c d Vt -> nth_error (slices Vt) i = nth_error (slices V) i ->
  i < d -> i < r * c ->
  exists m,
    InertiaWeight.update_particle R1 R2 P bp bs w c1 c2 i Vt
    = Done (Cube r c (replace_nth (slices Vt) i m)) /\
    cube_of r c d (Cube r c (replace_nth (slices Vt) i m)) /\
    velocity_of i m.
Proof.
  intros HVt Hsame Hid Hirc.
  destruct (slice_cube_of HVt Hid) as (v & Hv & Hsv & Hvs).
  destruct (slice_cube_of P_shape Hid) as (x & Hx & Hsx & Hxs).
  destruct (at_in_bounds bp_shape Hirc) as (pb & Hpb & Hapb).
  destruct (at_in_bounds bs_shape Hirc) as (gb & Hgb & Hagb).
  assert (HR1 : has_shape r c R1) by apply randu_shape.
  assert (HR2 : has_shape r c R2) by apply randu_shape.
  destruct (elementwise_shape PrimFloat.mul
              (scale_shape c1 HR1) (scalar_minus_shape pb Hxs))
    as (cog & Hcog & Hcogs & Hcogm).
  destruct (elementwise_shape PrimFloat.mul
              (scale_shape c2 HR2) (scalar_minus_shape gb Hxs))
    as (soc & Hsoc & Hsocs & Hsocm).
  destruct (elementwise_shape PrimFloat.add (scale_shape w Hvs) Hcogs)
    as (s1 & Hs1 & Hs1s & Hs1m).
  destruct (elementwise_shape PrimFloat.add Hs1s Hsocs)
    as (s2 & Hs2 & Hs2s & Hs2m).
  destruct (set_slice_cube_of HVt Hid Hs2s) as (Hset & Hcube).
  exists s2. split; [|split; [exact Hcube|]].
  - unfold InertiaWeight.update_particle, schur, plus.
    rewrite Hsv. cbn [bind]. rewrite Hapb. cbn [bind].
    rewrite Hsx. cbn [bind]. rewrite Hagb. cbn [bind].
    rewrite Hcog. cbn [bind]. rewrite Hsoc. cbn [bind].
    rewrite Hs1. cbn [bind]. rewrite Hs2. cbn [bind]. exact Hset.
  - exists v, x, pb, gb. rewrite <- Hsame. repeat split; try assumption;
      try apply Hs2s.
    intros j Hj.
    destruct Hvs as (Hv1 & Hv2 & Hv3). destruct Hxs as (Hx1 & Hx2 & Hx3).
    unfold mat_ok, n_elem in Hv3, Hx3.
    destruct (@nth_error_in_bounds _ (mem v) j) as (vj & Hvj);
      [rewrite Hv3, Hv1, Hv2; exact Hj|].
    destruct (@nth_error_in_bounds _ (mem x) j) as (xj & Hxj);
      [rewrite Hx3, Hx1, Hx2; exact Hj|].
    exists vj, xj. repeat split; try assumption.
    rewrite Hs2m, Hs1m, Hcogm, Hsocm. unfold scale, scalar_minus.
    cbn [mem]. rewrite !nth_error_zip_with, !nth_error_map.
    pose proof (R1_at Hj) as Hr1. pose proof (R2_at Hj) as Hr2.
    unfold double in *. rewrite Hvj, Hxj, Hr1, Hr2. reflexivity.
Qed.

Lemma update_particle_out_of_bounds (i : nat) (Vt : cube) :
  cube_of r c d Vt -> i < d -> r * c <= i ->
  InertiaWeight.update_particle R1 R2 P bp bs w c1 c2 i Vt
  = Undefined ElementOutOfBounds.
Proof.
  intros HVt Hid Hirc.
  destruct (slice_cube_of HVt Hid) as (v & Hv & Hsv & Hvs).
  unfold InertiaWeight.update_particle. rewrite Hsv. cbn [bind].
  now rewrite (at_out_of_bounds bp_shape Hirc).
Qed.

Lemma Update_unfold :
  InertiaWeight.Update src drawn0 P V bp bs w c1 c2 d =
  (v <- for_upto d (InertiaWeight.update_particle R1 R2 P bp bs w c1 c2) V ;;
   Done (v, drawn0 + r * c + r * c)).
Proof.
  unfold InertiaWeight.Update.
  destruct P_shape as (-> & -> & _). reflexivity.
Qed.

(** The particle loop of [Update], as far as the best matrices have
    elements. *)
Lemma update_loop_in_bounds (n : nat) :
  n <= d -> n <= r * c ->
  exists V',
    for_upto n (InertiaWeight.update_particle R1 R2 P bp bs w c1 c2) V
    = Done V' /\
    cube_of r c d V' /\
    (forall j, n <= j -> nth_error (slices V') j = nth_error (slices V) j) /\
    (forall j, j < n ->
       exists m, nth_error (slices V') j = Some m /\ velocity_of j m).
Proof.
  intros Hnd Hnrc. unfold for_upto.
  destruct (@for_range_defined _
              (InertiaWeight.update_particle R1 R2 P bp bs w c1 c2)
              (fun i Vt =>
                 cube_of r c d Vt /\
                 (forall j, i <= j ->
                    nth_error (slices Vt) j = nth_error (slices V) j) /\
                 (forall j, j < i ->
                    exists m, nth_error (slices Vt) j = Some m /\
                              velocity_of j m))
              n 0 V) as (V' & HV' & Hinv).
  - intros i Vt Hi (HVt & Hrest & Hdone).
    destruct (@update_particle_in_bounds i Vt HVt (Hrest i (le_n i)))
      as (m & Hrun & Hcube & Hm); [lia | lia |].
    eexists. split; [exact Hrun|]. split; [exact Hcube|].
    assert (Hlen : i < length (slices Vt))
      by (destruct HVt as (_ & _ & Hn & _); unfold n_slices in Hn; lia).
    cbn [slices]. split.
    + intros j Hj. rewrite (nth_error_replace_nth _ _ m Hlen).
      replace (j =? i) with false by (symmetry; apply Nat.eqb_neq; lia).
      apply Hrest. lia.
    + intros j Hj. rewrite (nth_error_replace_nth _ _ m Hlen).
      destruct (Nat.eqb_spec j i) as [->|Hne].
      * exists m. split; [reflexivity | exact Hm].
      * apply Hdone. lia.
  - split; [exact V_shape|]. split; [reflexivity|]. intros j Hj. lia.
  - exists V'. split; [exact HV' | exact Hinv].
Qed.

Lemma Update_in_bounds :
  d <= r * c ->
  exists V',
    InertiaWeight.Update src drawn0 P V bp bs w c1 c2 d
    = Done (V', drawn0 + 2 * (r * c)) /\
    cube_of r c d V' /\
    (forall i, i < d ->
       exists m, nth_error (slices V') i = Some m /\ velocity_of i m).
Proof.
  intros Hd.
  destruct (@update_loop_in_bounds d (le_n d) Hd)
    as (V' & Hrun & Hcube & _ & Hnew).
  exists V'. rewrite Update_unfold, Hrun. cbn [bind].
  split; [f_equal; f_equal; lia|]. split; assumption.
Qed.

Lemma Update_out_of_bounds :
  r * c < d ->
  InertiaWeight.Update src drawn0 P V bp bs w c1 c2 d
  = Undefined ElementOutOfBounds.
Proof.
  intros Hd. rewrite Update_unfold. unfold for_upto.
  replace d with (r * c + (d - r * c)) at 1 by lia.
  rewrite for_range_app.
  destruct (@update_loop_in_bounds (r * c)) as (Vt & Hrun & Hcube & _);
    [lia | lia |].
  unfold for_upto in Hrun. rewrite Hrun. cbn [bind Nat.add].
  destruct (d - r * c) as [|k] eqn:E; [lia|]. cbn [for_range].
  rewrite (@update_particle_out_of_bounds (r * c) Vt Hcube); [|lia|lia].
  reflexivity.
Qed.

End InertiaWeightUpdate.

(* ------------------------------------------------------------------ *)
(** ** [PSOType<InertiaWeight>]: the runs are defined *)

#[local] Existing Instance InertiaWeight.policy.

Section Defined.

Variable Fn : Type.
Variable Evaluate : Fn -> mat -> double * Fn.
Variable opt : PSOType.
Variable src : source.
Variables r c : nat.

Lemma evaluate_particle_defined (k : nat) (s : state Fn) :
  well_shaped opt r c s -> k < dimension opt ->
  exists s', evaluate_particle Evaluate k s = Done s' /\ well_shaped opt r c s'.
Proof.
  intros (HP & HV & Hbp & Hbs) Hk.
  destruct (slice_cube_of HP Hk) as (x & _ & Hx & Hxs).
  unfold evaluate_particle. rewrite Hx. cbn [bind].
  destruct (Evaluate (function s) x) as [v fn']. eexists.
  split; [reflexivity|]. unfold well_shaped. simpl.
  repeat split; try apply HP; try apply HV; try apply Hbs;
    destruct (lt v (lastObjectiveIndividual s)); try apply Hxs;
    try apply Hbp.
Qed.

Lemma evaluate_swarm_defined (s : state Fn) :
  well_shaped opt r c s ->
  exists s', evaluate_swarm Evaluate opt s = Done s' /\ well_shaped opt r c s'.
Proof.
  intros Hs. unfold evaluate_swarm, for_upto.
  destruct (@for_range_defined _ (evaluate_particle Evaluate)
              (fun _ t => well_shaped opt r c t) (dimension opt) 0 s)
    as (s' & Hrun & Hs'); [|exact Hs|eauto].
  intros i t Hi Ht. apply evaluate_particle_defined; [exact Ht | lia].
Qed.

Lemma update_global_well_shaped (s : state Fn) :
  well_shaped opt r c s -> well_shaped opt r c (update_global s).
Proof.
  intros (HP & HV & Hbp & Hbs). unfold well_shaped, update_global. simpl.
  repeat split; try apply HP; try apply HV; try apply Hbp;
    destruct (lt (lastObjectiveIndividual s) (lastObjectiveGlobal s));
    try apply Hbp; try apply Hbs.
Qed.

Hypothesis population : 1 <= dimension opt <= r * c.

(** One iteration from a well-shaped state: it is defined, keeps the
    shapes, and draws [2 * r * c] numbers. *)
Lemma iteration_defined (s : state Fn) :
  well_shaped opt r c s ->
  exists ctl s',
    iteration Evaluate opt src s = Done (ctl, s') /\
    well_shaped opt r c s' /\ drawn s' = drawn s + 2 * (r * c).
Proof.
  intros Hs. unfold iteration, update_bests.
  destruct (evaluate_swarm_defined Hs) as (s1 & Hrun1 & Hs1).
  rewrite Hrun1. cbn [bind].
  destruct (@evaluate_swarm_frame _ _ _ _ _ Hrun1)
    as ((_ & _ & _ & _ & _ & Hdr & _) & vs & _ & _ & Hcur).
  pose proof (update_global_well_shaped Hs1) as (HP & HV & Hbp & Hbs).
  destruct (@Update_in_bounds src (drawn (update_global s1)) r c
              (dimension opt) _ _ _ _ (interiaWeight opt)
              (cognitiveAcceleration opt) (socialAcceleration opt)
              HP HV Hbp Hbs (proj2 population))
    as (V' & HV' & HV's & _).
  unfold update_velocity. cbn [Update InertiaWeight.policy].
  rewrite HV'. cbn [bind fst snd].
  destruct (cube_plus_cube_of HP HV's) as (p & Hp & Hps).
  unfold update_position. cbn [particlePosition particleVelocity].
  rewrite Hp. cbn [bind]. unfold check_tolerance.
  cbn [currentObjective update_global]. rewrite Hcur by apply population.
  cbn [bind]. do 2 eexists. split; [reflexivity|].
  split; [|simpl; rewrite Hdr; reflexivity].
  unfold well_shaped. simpl. repeat split; try apply Hps; try apply HV's;
    try apply Hbp; try apply Hbs.
Qed.

Lemma iterations_defined (n : nat) (s : state Fn) :
  well_shaped opt r c s ->
  exists v s', iterations Evaluate opt src n s = Done (v, s').
Proof.
  revert s. induction n as [|n IH]; intros s Hs; simpl; [eauto|].
  destruct (iteration_defined Hs) as (ctl & s' & -> & Hs' & _).
  cbn [bind fst snd]. destruct ctl; [eauto | apply IH, Hs'].
Qed.

End Defined.

Lemma initial_well_shaped (Fn : Type) (opt : PSOType) (fn : Fn) (it : mat) :
  mat_ok it ->
  well_shaped opt (n_rows it) (n_cols it) (initial_state opt fn it).
Proof.
  intros Hok.
  assert (Hit : has_shape (n_rows it) (n_cols it) it)
    by (repeat split; exact Hok).
  assert (Hcube : cube_of (n_rows it) (n_cols it) (dimension opt)
                    (Cube (n_rows it) (n_cols it) (repeat it (dimension opt)))).
  { unfold cube_of, n_slices. simpl. rewrite repeat_length.
    repeat split. apply Forall_forall. intros x Hx.
    apply repeat_spec in Hx. now subst. }
  unfold well_shaped, initial_state. simpl. auto.
Qed.

(** With at least one particle and no more particles than a position has
    elements, [Optimize] returns. *)
Lemma Optimize_defined (Fn : Type) (Evaluate : Fn -> mat -> double * Fn)
  (opt : PSOType) (src : source) (fn : Fn) (it : mat) :
  mat_ok it -> 1 <= dimension opt <= n_elem it ->
  exists v s, Optimize Evaluate opt src fn it = Done (v, s).
Proof.
  intros Hok Hd. unfold Optimize. rewrite initialize_defined by lia.
  cbn [bind].
  apply iterations_defined with (r := n_rows it) (c := n_cols it);
    [exact Hd | now apply initial_well_shaped].
Qed.

(* ------------------------------------------------------------------ *)
(** ** What [Optimize] leaves in [iterate] *)

Section Iterate.

Variable Fn : Type.
Variable Evaluate : Fn -> mat -> double * Fn.
Context {velocityType : VelocityVectorType}.
Variable opt : PSOType.
Variable src : source.

Lemma iterations_keep_iterate (n : nat) (s s' : state Fn) (v : double) :
  iterations Evaluate opt src n s = Done (v, s') -> iterate s' = iterate s.
Proof.
  revert s. induction n as [|n IH]; intros s H; simpl in H.
  - now injection H as _ <-.
  - exec_inv. destruct a as [ctl t]. cbn [fst snd] in H.
    apply iteration_frame in Ha. destruct Ha as (_ & _ & Hit & _).
    destruct ctl.
    + injection H as _ <-. exact Hit.
    + rewrite (IH _ H). exact Hit.
Qed.

(** No statement of [Optimize] assigns to [iterate]. *)
Lemma Optimize_keeps_iterate (fn : Fn) (it : mat) (s : state Fn)
  (v : double) :
  Optimize Evaluate opt src fn it = Done (v, s) -> iterate s = it.
Proof.
  unfold Optimize. intros H. exec_inv.
  rewrite (iterations_keep_iterate _ _ H).
  unfold initialize in Ha. exec_inv. reflexivity.
Qed.

End Iterate.

(* ------------------------------------------------------------------ *)
(** ** Properties of [Optimize] and [Update] *)

(** C1 (the code departs from the claim).  A run on [f(x) = 10 - x[0]]
    from [x = 1] with one particle and two iterations: [Optimize] returns
    the objective value of the swarm's best position, which is not the
    starting point, and [iterate] still holds the starting point, whose
    objective value is larger than the one returned. *)
Theorem Optimize_leaves_the_starting_point_in_iterate :
  exists (v : double) (s : state unit),
    Optimize ten_minus_first (default_PSO 1 2) halves tt (one_by_one 1%float)
    = Done (v, s) /\
    iterate s = one_by_one 1%float /\
    fst (ten_minus_first tt (bestSwarmPosition s)) = v /\
    lt v (fst (ten_minus_first tt (iterate s))) = true /\
    bestSwarmPosition s <> iterate s.
Proof.
  eexists. eexists. split; [vm_compute; reflexivity|].
  split; [reflexivity|]. split; [vm_compute; reflexivity|].
  split; [vm_compute; reflexivity|].
  intros H.
  apply (f_equal (fun m => lt (hd PrimFloat.zero (mem m)) 1.5%float)) in H.
  vm_compute in H. discriminate H.
Qed.

(** C2 (the code departs from the claim).  With [maxIterations = 0] the
    loop body is never executed: [Optimize] returns [DBL_MAX] at once, with
    the variables as the initialization left them (no objective value
    evaluated, no position moved). *)
Theorem Optimize_with_zero_maxIterations_returns_at_once
  (Fn : Type) (Evaluate : Fn -> mat -> double * Fn)
  (velocityType : VelocityVectorType) (opt : PSOType) (src : source)
  (fn : Fn) (it : mat) :
  maxIterations opt = 0 -> 1 <= dimension opt ->
  Optimize Evaluate opt src fn it = Done (DBL_MAX, initial_state opt fn it) /\
  evaluated (initial_state opt fn it) = [] /\
  trajectory (initial_state opt fn it) = [].
Proof.
  intros Hmax Hd. unfold Optimize. rewrite initialize_defined by exact Hd.
  rewrite Hmax. repeat split.
Qed.

Lemma Optimize_with_zero_maxIterations_witness :
  Optimize ten_minus_first (default_PSO 1 0) halves tt (one_by_one 1%float)
  = Done (DBL_MAX, initial_state (default_PSO 1 0) tt (one_by_one 1%float)) /\
  evaluated (initial_state (default_PSO 1 0) tt (one_by_one 1%float)) = [] /\
  trajectory (initial_state (default_PSO 1 0) tt (one_by_one 1%float)) = [].
Proof.
  apply (@Optimize_with_zero_maxIterations_returns_at_once
           unit ten_minus_first InertiaWeight.policy (default_PSO 1 0) halves
           tt (one_by_one 1%float)).
  - reflexivity.
  - simpl. lia.
Defined.

(** *** [InertiaWeight::Update] *)

Lemma for_range_ext (St : Type) (body body' : nat -> St -> exec St)
  (n lo : nat) (s : St) :
  (forall i t, lo <= i < lo + n -> body i t = body' i t) ->
  for_range lo n body s = for_range lo n body' s.
Proof.
  revert lo s. induction n as [|n IH]; intros lo s H; simpl; [reflexivity|].
  rewrite <- (H lo s) by lia. destruct (body lo s) as [t|f]; simpl;
    [|reflexivity].
  apply IH. intros i u Hi. apply H. lia.
Qed.

(** [Update] looks at the best matrices through their elements number
    [0 .. dimension-1] only. *)
Lemma Update_reads_only_the_first_elements (src : source) (drawn0 d : nat)
  (P V : cube) (bp bs bp' bs' : mat) (w c1 c2 : double) :
  (forall i, i < d -> nth_error (mem bp') i = nth_error (mem bp) i) ->
  (forall i, i < d -> nth_error (mem bs') i = nth_error (mem bs) i) ->
  InertiaWeight.Update src drawn0 P V bp' bs' w c1 c2 d =
  InertiaWeight.Update src drawn0 P V bp bs w c1 c2 d.
Proof.
  intros Hbp Hbs. unfold InertiaWeight.Update, randu, for_upto.
  f_equal. apply for_range_ext. intros i Vt Hi.
  unfold InertiaWeight.update_particle, at_.
  rewrite Hbp, Hbs by lia. reflexivity.
Qed.

Lemma two_particles_shape : cube_of 1 2 2 two_particles.
Proof. unfold cube_of, has_shape, mat_ok. repeat constructor. Qed.

Lemma three_particles_shape : cube_of 1 2 3 three_particles.
Proof. unfold cube_of, has_shape, mat_ok. repeat constructor. Qed.

Lemma a_best_shape : has_shape 1 2 a_best.
Proof. repeat constructor. Qed.

(** C3 (the code departs from the claim).  One particle at [(1, 2)] at
    rest, both bests at [(10, 20)], [omega = 1], [c1 = 1], [c2 = 0], every
    draw 0.5.  The update of the specification pulls the particle towards
    the best position, by [0.5 * ((10, 20) - (1, 2)) = (4.5, 9)]; the code
    subtracts the position from the single element [bestParticlePosition[0]
    = 10] and gives [0.5 * (10 - (1, 2)) = (4.5, 4)]. *)
Theorem Update_subtracts_from_one_element_of_the_best :
  InertiaWeight.Update halves 0 one_particle at_rest a_best a_best
    1%float 1%float 0%float 1
  = Done (Cube 1 2 [Mat 1 2 [4.5%float; 4%float]], 4) /\
  Update_as_specified halves 0 one_particle at_rest a_best a_best
    1%float 1%float 0%float 1
  = Done (Cube 1 2 [Mat 1 2 [4.5%float; 9%float]], 4).
Proof. split; vm_compute; reflexivity. Qed.

(** *** Swarms without particles *)





(** *** The particle loop at the loop head *)

Lemma zip_slices_length (a b s : list mat) :
  zip_slices a b = Done s -> length s = length a.
Proof.
  revert b s. induction a as [|x a IH]; intros [|y b] s H; simpl in H;
    try discriminate.
  - now injection H as <-.
  - exec_inv. simpl. f_equal. eapply IH. eassumption.
Qed.

Lemma cube_plus_n_slices (a b p : cube) :
  cube_plus a b = Done p -> n_slices p = n_slices a.
Proof.
  unfold cube_plus. destruct (_ && _); [|discriminate]. intros H. exec_inv.
  unfold n_slices. simpl. eapply zip_slices_length. eassumption.
Qed.

Section LoopHead.

Variable Fn : Type.
Variable Evaluate : Fn -> mat -> double * Fn.
Context {velocityType : VelocityVectorType}.
Variable opt : PSOType.
Variable src : source.
Variable fn : Fn.
Variable it : mat.

Lemma initialize_n_slices (s : state Fn) :
  initialize opt fn it = Done s ->
  n_slices (particlePosition s) = dimension opt.
Proof.
  destruct (dimension opt) as [|d] eqn:Hd.
  - rewrite initialize_no_particle by exact Hd. discriminate.
  - rewrite initialize_defined by lia. intros [= <-].
    unfold n_slices. simpl. now rewrite repeat_length.
Qed.

Lemma iteration_n_slices (s s' : state Fn) (ctl : control) :
  iteration Evaluate opt src s = Done (ctl, s') ->
  n_slices (particlePosition s') = n_slices (particlePosition s).
Proof.
  intros H. apply iteration_Done in H.
  destruct H as (s1 & s2 & H1 & H2 & H3 & _).
  apply update_bests_Done in H1. destruct H1 as (t & Ht & ->).
  apply evaluate_swarm_frame in Ht. destruct Ht as ((_ & HP & _) & _).
  apply update_velocity_Done in H2. destruct H2 as (v & d & _ & ->).
  apply update_position_Done in H3. destruct H3 as (p & Hp & ->).
  apply cube_plus_n_slices in Hp. simpl in *. now rewrite Hp, HP.
Qed.

Lemma loop_head_n_slices (i : nat) (s : state Fn) :
  loop_head Evaluate opt src fn it i s ->
  n_slices (particlePosition s) = dimension opt.
Proof.
  induction 1 as [s H|i s s' _ IH _ H].
  - now apply initialize_n_slices.
  - now rewrite (iteration_n_slices _ H).
Qed.

(** With one slice per particle, the particle loop is defined. *)
Lemma evaluate_swarm_total (s : state Fn) :
  n_slices (particlePosition s) = dimension opt ->
  exists s', evaluate_swarm Evaluate opt s = Done s'.
Proof.
  intros Hn. unfold evaluate_swarm, for_upto.
  destruct (@for_range_defined _ (evaluate_particle Evaluate)
              (fun _ t => particlePosition t = particlePosition s)
              (dimension opt) 0 s) as (s' & Hrun & _); [|reflexivity|eauto].
  intros i t Hi Ht. unfold evaluate_particle, slice. rewrite Ht.
  destruct (@nth_error_in_bounds _ (slices (particlePosition s)) i)
    as (x & ->); [unfold n_slices in Hn; lia|].
  cbn [bind]. destruct (Evaluate (function t) x) as [v fn'].
  eexists. split; reflexivity.
Qed.

Lemma loop_head_update_bests (i : nat) (s : state Fn) :
  loop_head Evaluate opt src fn it i s ->
  exists s1, update_bests Evaluate opt s = Done s1.
Proof.
  intros H. apply loop_head_n_slices in H.
  destruct (evaluate_swarm_total _ H) as (t & Ht).
  unfold update_bests. rewrite Ht. simpl. eauto.
Qed.

(** The runs of [Optimize] go from loop head to loop head: a run that
    returns does so from the tolerance check of an iteration begun at a
    loop head, or at the loop head number [maxIterations]. *)
Lemma iterations_from_loop_head (n i : nat) (s s' : state Fn) (v : double) :
  loop_head Evaluate opt src fn it i s -> i + n = maxIterations opt ->
  iterations Evaluate opt src n s = Done (v, s') ->
  exists j t,
    loop_head Evaluate opt src fn it j t /\
    ((j < maxIterations opt /\
      iteration Evaluate opt src t = Done (Return v, s')) \/
     (j = maxIterations opt /\ s' = t /\ v = lastObjectiveGlobal t)).
Proof.
  revert i s. induction n as [|n IH]; intros i s Hhead Hi H; simpl in H.
  - injection H as <- <-. exists i, s. split; [exact Hhead|].
    right. repeat split. lia.
  - exec_inv. destruct a as [[w|] t]; cbn [fst snd] in H.
    + injection H as <- <-. exists i, s. split; [exact Hhead|].
      left. split; [lia | exact Ha].
    + apply (IH (S i) t); [|lia|exact H].
      apply head_next with (s := s); [exact Hhead | lia | exact Ha].
Qed.

Lemma Optimize_ends_at_a_loop_head (s' : state Fn) (v : double) :
  Optimize Evaluate opt src fn it = Done (v, s') ->
  exists j t,
    loop_head Evaluate opt src fn it j t /\
    ((j < maxIterations opt /\
      iteration Evaluate opt src t = Done (Return v, s')) \/
     (j = maxIterations opt /\ s' = t /\ v = lastObjectiveGlobal t)).
Proof.
  unfold Optimize. intros H. exec_inv.
  apply (@iterations_from_loop_head (maxIterations opt) 0 a);
    [apply head_first; exact Ha | reflexivity | exact H].
Qed.

End LoopHead.

(** *** Monotonicity of the swarm best *)

(** C6, as stated, fails: an objective that returns NaN is evaluated, the
    comparison [NaN < DBL_MAX] is false, the swarm best stays [DBL_MAX],
    and [DBL_MAX <= NaN] is false. *)
Lemma swarm_best_does_not_bound_a_nan_value :
  exists s1 : state unit,
    loop_head always_nan (default_PSO 1 1) halves tt (one_by_one 1%float) 0
      (initial_state (default_PSO 1 1) tt (one_by_one 1%float)) /\
    update_bests always_nan (default_PSO 1 1)
      (initial_state (default_PSO 1 1) tt (one_by_one 1%float)) = Done s1 /\
    ~ bounds_every_value s1.
Proof.
  eexists. split; [apply head_first; reflexivity|].
  split; [vm_compute; reflexivity|].
  intros H. specialize (H PrimFloat.nan (or_introl eq_refl)).
  vm_compute in H. discriminate H.
Qed.

(** C6, amended.  Each time the iteration loop starts an iteration, its
    two best-update steps are defined and leave a swarm-best objective
    that is below or equal to the one before, below or equal to every value
    evaluated so far that is not NaN, and not above any value evaluated so
    far; the rest of the iteration does not change it. *)
Theorem swarm_best_never_increases
  (Fn : Type) (Evaluate : Fn -> mat -> double * Fn)
  (velocityType : VelocityVectorType) (opt : PSOType) (src : source)
  (fn : Fn) (it : mat) (i : nat) (s : state Fn) :
  loop_head Evaluate opt src fn it i s ->
  exists s1,
    update_bests Evaluate opt s = Done s1 /\
    le (lastObjectiveGlobal s1) (lastObjectiveGlobal s) = true /\
    (forall v, In v (evaluated s1) -> isnan v = false ->
               le (lastObjectiveGlobal s1) v = true) /\
    (forall v, In v (evaluated s1) -> lt v (lastObjectiveGlobal s1) = false) /\
    (forall ctl s', iteration Evaluate opt src s = Done (ctl, s') ->
                    lastObjectiveGlobal s' = lastObjectiveGlobal s1 /\
                    evaluated s' = evaluated s1).
Proof.
  intros Hhead.
  destruct (loop_head_update_bests Hhead) as (s1 & Hs1). exists s1.
  pose proof (loop_head_coincide Hhead) as Hs.
  destruct (@update_bests_coincide _ _ _ _ _ Hs Hs1)
    as ((_ & _ & Hnan & Hev) & Hcase).
  split; [exact Hs1|]. split; [|split; [|split]].
  - destruct Hcase as [->|Hlt]; [|exact (lt_le Hlt)].
    apply le_refl. apply Hs.
  - intros v Hv Hvnan. apply lt_false_le; auto.
  - exact Hev.
  - intros ctl s' Hit. apply iteration_frame in Hit.
    destruct Hit as (t & Ht & _ & _ & _ & _ & _ & Hg & He & _).
    rewrite Ht in Hs1. injection Hs1 as ->. split; assumption.
Qed.

Lemma swarm_best_never_increases_witness :
  exists s1,
    update_bests ten_minus_first (default_PSO 1 2)
      (initial_state (default_PSO 1 2) tt (one_by_one 1%float)) = Done s1 /\
    le (lastObjectiveGlobal s1) DBL_MAX = true /\
    (forall v, In v (evaluated s1) -> isnan v = false ->
               le (lastObjectiveGlobal s1) v = true) /\
    (forall v, In v (evaluated s1) -> lt v (lastObjectiveGlobal s1) = false) /\
    (forall ctl s',
        iteration ten_minus_first (default_PSO 1 2) halves
          (initial_state (default_PSO 1 2) tt (one_by_one 1%float))
        = Done (ctl, s') ->
        lastObjectiveGlobal s' = lastObjectiveGlobal s1 /\
        evaluated s' = evaluated s1).
Proof.
  apply (@swarm_best_never_increases unit ten_minus_first InertiaWeight.policy
           (default_PSO 1 2) halves tt (one_by_one 1%float) 0
           (initial_state (default_PSO 1 2) tt (one_by_one 1%float))).
  apply head_first. reflexivity.
Defined.

(** *** One particle *)

(** C7.  With one particle, each time the iteration loop starts an
    iteration, its two best-update steps are defined and leave the
    individual-best and swarm-best objectives equal and the individual-best
    and swarm-best positions equal. *)
Theorem one_particle_bests_coincide
  (Fn : Type) (Evaluate : Fn -> mat -> double * Fn)
  (velocityType : VelocityVectorType) (opt : PSOType) (src : source)
  (fn : Fn) (it : mat) (i : nat) (s : state Fn) :
  dimension opt = 1 ->
  loop_head Evaluate opt src fn it i s ->
  exists s1,
    update_bests Evaluate opt s = Done s1 /\
    lastObjectiveIndividual s1 = lastObjectiveGlobal s1 /\
    bestParticlePosition s1 = bestSwarmPosition s1.
Proof.
  intros _ Hhead.
  destruct (loop_head_update_bests Hhead) as (s1 & Hs1). exists s1.
  pose proof (loop_head_coincide Hhead) as Hs.
  destruct (@update_bests_coincide _ _ _ _ _ Hs Hs1)
    as ((Hobj & Hpos & _) & _).
  auto.
Qed.

Lemma one_particle_bests_coincide_witness :
  exists s1,
    update_bests ten_minus_first (default_PSO 1 2)
      (initial_state (default_PSO 1 2) tt (one_by_one 1%float)) = Done s1 /\
    lastObjectiveIndividual s1 = lastObjectiveGlobal s1 /\
    bestParticlePosition s1 = bestSwarmPosition s1.
Proof.
  apply (@one_particle_bests_coincide unit ten_minus_first InertiaWeight.policy
           (default_PSO 1 2) halves tt (one_by_one 1%float) 0
           (initial_state (default_PSO 1 2) tt (one_by_one 1%float))).
  - reflexivity.
  - apply head_first. reflexivity.
Defined.

(** *** The tolerance check and the value returned *)

Lemma nth_error_last (vs : list double) (z : double) :
  1 <= length vs -> nth_error vs (length vs - 1) = Some (last vs z).
Proof.
  destruct vs as [|x vs] using rev_ind; [simpl; lia|]. intros _.
  rewrite last_last, length_app. simpl.
  replace (length vs + 1 - 1) with (length vs) by lia.
  rewrite nth_error_app2 by lia. now rewrite Nat.sub_diag.
Qed.

Section Outcome.

Variable Fn : Type.
Variable Evaluate : Fn -> mat -> double * Fn.
Context {velocityType : VelocityVectorType}.
Variable opt : PSOType.
Variable src : source.

Hypothesis a_particle : 1 <= dimension opt.

(** One iteration evaluates [dimension] values, and its tolerance check
    looks at the last of them only. *)
Lemma iteration_checks_last (s s' : state Fn) (ctl : control) :
  iteration Evaluate opt src s = Done (ctl, s') ->
  length (evaluated s) = length (trajectory s) * dimension opt ->
  exists vs last_value,
    evaluated s' = evaluated s ++ vs /\
    length vs = dimension opt /\
    length (trajectory s') = S (length (trajectory s)) /\
    last_evaluated_in (dimension opt) (evaluated s') (length (trajectory s'))
    = Some last_value /\
    ctl = if lt last_value (tolerance opt) then Return last_value else Next.
Proof.
  intros H Hlen. pose proof H as Hchk. apply iteration_Done in Hchk.
  destruct Hchk as (_ & _ & _ & _ & _ & Hchk).
  apply iteration_frame in H.
  destruct H as (s1 & H1 & _ & _ & _ & Hcur & _ & _ & Hev & Htr).
  apply update_bests_Done in H1. destruct H1 as (t & Ht & ->).
  apply evaluate_swarm_frame in Ht.
  destruct Ht as (_ & vs & Hvs & Hvsl & Hlast).
  exists vs, (last vs PrimFloat.zero).
  cbn [evaluated currentObjective update_global] in Hev, Hcur.
  rewrite Hev, Hvs. repeat split; try assumption.
  - unfold last_evaluated_in. rewrite Htr.
    replace (S (length (trajectory s)) * dimension opt - 1)
      with (length (evaluated s) + (length vs - 1)) by nia.
    rewrite nth_error_app2 by lia.
    replace (length (evaluated s) + (length vs - 1) - length (evaluated s))
      with (length vs - 1) by lia.
    apply nth_error_last. lia.
  - unfold check_tolerance in Hchk. rewrite Hcur, (Hlast a_particle) in Hchk.
    now injection Hchk as <-.
Qed.

(** The loop of line 68, from a state reached after [length (trajectory
    s)] iterations: either some later iteration [k] found its last value
    below the tolerance, no iteration before it did, and that value is
    returned; or all [n] remaining iterations ran, none found its last
    value below the tolerance, and the swarm best is returned. *)
Lemma iterations_outcome (n : nat) (s s' : state Fn) (v : double) :
  iterations Evaluate opt src n s = Done (v, s') ->
  length (evaluated s) = length (trajectory s) * dimension opt ->
  let d := dimension opt in
  let k0 := length (trajectory s) in
  let k := length (trajectory s') in
  length (evaluated s') = k * d /\
  (exists vs, evaluated s' = evaluated s ++ vs) /\
  ((k0 < k <= k0 + n /\
    (forall j w, k0 < j < k ->
       last_evaluated_in d (evaluated s') j = Some w ->
       lt w (tolerance opt) = false) /\
    last_evaluated_in d (evaluated s') k = Some v /\
    lt v (tolerance opt) = true)
   \/
   (k = k0 + n /\
    (forall j w, k0 < j <= k ->
       last_evaluated_in d (evaluated s') j = Some w ->
       lt w (tolerance opt) = false) /\
    v = lastObjectiveGlobal s')).
Proof.
  revert s. induction n as [|n IH]; intros s H Hlen; cbv zeta; simpl in H.
  - injection H as <- <-. split; [exact Hlen|].
    split; [exists []; now rewrite app_nil_r|]. right.
    split; [lia|]. split; [intros j w Hj; lia | reflexivity].
  - exec_inv. destruct a as [ctl t]. cbn [fst snd] in H.
    pose proof Ha as Hchk. apply iteration_checks_last in Hchk; [|exact Hlen].
    destruct Hchk as (vs & lv & Hev & Hvsl & Htr & Hlast & Hctl).
    assert (Hlent : length (evaluated t)
                    = length (trajectory t) * dimension opt).
    { rewrite Hev, length_app, Htr, Hlen, Hvsl. lia. }
    destruct (lt lv (tolerance opt)) eqn:Hlt; subst ctl.
    + injection H as <- <-. split; [exact Hlent|].
      split; [exists vs; exact Hev|]. left. rewrite Htr.
      split; [lia|]. split; [intros j w Hj; lia|].
      rewrite <- Htr. split; assumption.
    + destruct (IH t H Hlent) as (Hlen' & (ws & Hws) & Hcase).
      split; [exact Hlen'|].
      split; [exists (vs ++ ws); now rewrite Hws, Hev, app_assoc|].
      assert (Hfirst : forall w,
                 last_evaluated_in (dimension opt) (evaluated s')
                   (S (length (trajectory s))) = Some w ->
                 lt w (tolerance opt) = false).
      { intros w Hw. unfold last_evaluated_in in Hw, Hlast.
        rewrite Htr in Hlast. rewrite Hws, nth_error_app1 in Hw by nia.
        congruence. }
      rewrite Htr in Hcase.
      destruct Hcase as [(Hk & Hbefore & Hk_last & Hk_lt)
                        |(Hk & Hall & Hv)]; [left|right].
      * split; [lia|]. split; [|split; assumption].
        intros j w Hj Hw.
        destruct (Nat.eq_dec j (S (length (trajectory s)))) as [->|Hne];
          [now apply Hfirst | apply (Hbefore j w); [lia | exact Hw]].
      * split; [lia|]. split; [|exact Hv].
        intros j w Hj Hw.
        destruct (Nat.eq_dec j (S (length (trajectory s)))) as [->|Hne];
          [now apply Hfirst | apply (Hall j w); [lia | exact Hw]].
Qed.

End Outcome.

(** Every run that returns, whatever the velocity policy. *)
Lemma Optimize_outcome (Fn : Type) (Evaluate : Fn -> mat -> double * Fn)
  (velocityType : VelocityVectorType) (opt : PSOType) (src : source)
  (fn : Fn) (it : mat) (v : double) (s : state Fn) :
  Optimize Evaluate opt src fn it = Done (v, s) ->
  returned_as_checked opt v s.
Proof.
  intros Hrun. unfold Optimize in Hrun.
  destruct (Nat.eq_dec (dimension opt) 0) as [Hd|Hd].
  - rewrite initialize_no_particle in Hrun by exact Hd. discriminate Hrun.
  - assert (Hone : 1 <= dimension opt) by lia.
    rewrite initialize_defined in Hrun by exact Hone. cbn [bind] in Hrun.
    destruct (@iterations_outcome _ Evaluate _ opt src Hone
                (maxIterations opt) _ s v Hrun eq_refl)
      as (Hlen & _ & Hcase).
    cbn [initial_state trajectory length Nat.add] in Hcase.
    unfold returned_as_checked. cbv zeta.
    split; [exact Hlen|].
    destruct Hcase as [(Hk & Hbefore & Hlast & Hlt)|(Hk & Hall & Hv)];
      [left|right].
    + split; [lia|]. split; [|split; assumption].
      intros j w Hj. apply Hbefore. lia.
    + split; [exact Hk|]. split; [|exact Hv].
      intros j w Hj. apply Hall. lia.
Qed.

(** C5.  Every run of [Optimize] that returns, whatever the velocity
    policy, returns as the tolerance check on the last evaluated value of
    each iteration decides ([returned_as_checked]): that value, at the
    first iteration where it is below the tolerance, and the swarm-best
    objective when no iteration of the [maxIterations] had it below.  And
    with the inertia-weight policy the run does return, when there is at
    least one particle and no more particles than a position has
    elements. *)
Theorem Optimize_returns_the_last_value_or_the_swarm_best
  (Fn : Type) (Evaluate : Fn -> mat -> double * Fn) (opt : PSOType)
  (src : source) (fn : Fn) (it : mat) :
  (forall (policy : VelocityVectorType) (v : double) (s : state Fn),
     Optimize (velocityType := policy) Evaluate opt src fn it = Done (v, s) ->
     returned_as_checked opt v s) /\
  (mat_ok it -> 1 <= dimension opt <= n_elem it ->
   exists (v : double) (s : state Fn),
     Optimize (velocityType := InertiaWeight.policy) Evaluate opt src fn it
     = Done (v, s)).
Proof.
  split.
  - intros policy v s. apply Optimize_outcome.
  - intros Hok Hd. exact (Optimize_defined Evaluate opt src fn Hok Hd).
Qed.

Lemma Optimize_returns_witness :
  exists (v : double) (s : state unit),
    Optimize ten_minus_first (default_PSO 1 2) halves tt (one_by_one 1%float)
    = Done (v, s) /\
    returned_as_checked (default_PSO 1 2) v s.
Proof.
  destruct (@Optimize_returns_the_last_value_or_the_swarm_best
              unit ten_minus_first (default_PSO 1 2) halves tt
              (one_by_one 1%float)) as [Hchecked Hreturns].
  destruct Hreturns as (v & s & Hrun); [reflexivity | cbv; lia |].
  exists v, s. split; [exact Hrun | exact (Hchecked _ v s Hrun)].
Defined.

(** The value returned at the tolerance check need not be the best one:
    two particles whose values are [-7] and [0.5], tolerance [1]. *)
Example returned_value_is_not_the_best :
  exists s : state (list double),
    Optimize replay (PSO 2 1%float 1%float 1%float 1 1%float) halves
      [(-7)%float; 0.5%float] (Mat 1 2 [1%float; 2%float])
    = Done (0.5%float, s) /\
    lastObjectiveGlobal s = (-7)%float.
Proof. eexists. split; vm_compute; reflexivity. Qed.

(** *** Early termination *)

(** C4, as stated, fails with two particles: the first evaluation returns
    [0], below the tolerance [1], the second returns [5]; the check at the
    end of the first iteration sees [5], a second iteration runs, and the
    value returned is [-7]. *)
Lemma first_value_below_tolerance_is_not_returned :
  let opt := PSO 2 1%float 1%float 1%float 2 1%float in
  let values := [0%float; 5%float; (-7)%float; 6%float] in
  let start := Mat 1 2 [1%float; 2%float] in
  fst (replay values start) = 0%float /\
  lt 0%float (tolerance opt) = true /\
  exists s : state (list double),
    Optimize replay opt halves values start = Done ((-7)%float, s) /\
    evaluated s = values /\
    length (trajectory s) = 2.
Proof.
  cbv zeta. split; [reflexivity|]. split; [reflexivity|].
  eexists. split; [vm_compute; reflexivity|]. split; reflexivity.
Qed.

Section EarlyTermination.

Variable Fn : Type.
Variable Evaluate : Fn -> mat -> double * Fn.
Variable opt : PSOType.
Variable src : source.
Variable fn : Fn.
Variable it : mat.

(** Either there is one particle, or the value of the objective depends
    on the position only. *)
Hypothesis one_value :
  dimension opt = 1 \/
  (forall (f f' : Fn) (x : mat), fst (Evaluate f x) = fst (Evaluate f' x)).

(** In the first iteration every particle is at [it], so every
    evaluation returns what the first one returns. *)
Lemma first_sweep_value (s : state Fn) :
  evaluate_swarm Evaluate opt (initial_state opt fn it) = Done s ->
  1 <= dimension opt ->
  currentObjective s = Some (fst (Evaluate fn it)).
Proof.
  unfold evaluate_swarm, for_upto. intros H Hd.
  apply (@for_range_invariant _ _
           (fun i t =>
              particlePosition t = particlePosition (initial_state opt fn it) /\
              (i = 0 -> function t = fn) /\
              (1 <= i -> currentObjective t = Some (fst (Evaluate fn it)))))
    in H.
  - apply H. simpl. exact Hd.
  - intros i t t' Hi (HP & Hfn & _) Hstep.
    apply evaluate_particle_Done in Hstep. destruct Hstep as (x & Hx & ->).
    cbn [particlePosition function currentObjective].
    split; [exact HP|]. split; [lia|]. intros _. f_equal.
    rewrite HP in Hx. unfold slice in Hx.
    cbn [initial_state particlePosition slices] in Hx.
    destruct (nth_error (repeat it (dimension opt)) i) as [y|] eqn:Hy;
      [|discriminate]. injection Hx as ->.
    apply nth_error_In, repeat_spec in Hy. subst x.
    destruct one_value as [H1|Hpure]; [|apply Hpure].
    rewrite Hfn by lia. reflexivity.
  - split; [reflexivity|]. split; [reflexivity|]. lia.
Qed.

End EarlyTermination.

(** C4, amended.  When there is one particle, or when the value of the
    objective depends on the position only, [maxIterations >= 1], and the
    first evaluation returns a value below the tolerance: every run of
    [Optimize] that returns, whatever the velocity policy, returns that
    value at the end of the first iteration, after one evaluation per
    particle; and with the inertia-weight policy the run does return, when
    there is at least one particle and no more particles than a position has
    elements. *)
Theorem Optimize_stops_after_the_first_iteration
  (Fn : Type) (Evaluate : Fn -> mat -> double * Fn) (opt : PSOType)
  (src : source) (fn : Fn) (it : mat) :
  dimension opt = 1 \/
  (forall (f f' : Fn) (x : mat), fst (Evaluate f x) = fst (Evaluate f' x)) ->
  1 <= maxIterations opt ->
  lt (fst (Evaluate fn it)) (tolerance opt) = true ->
  (forall (policy : VelocityVectorType) (v : double) (s : state Fn),
     Optimize (velocityType := policy) Evaluate opt src fn it = Done (v, s) ->
     v = fst (Evaluate fn it) /\
     length (trajectory s) = 1 /\
     length (evaluated s) = dimension opt) /\
  (mat_ok it -> 1 <= dimension opt <= n_elem it ->
   exists s : state Fn,
     Optimize (velocityType := InertiaWeight.policy) Evaluate opt src fn it
     = Done (fst (Evaluate fn it), s)).
Proof.
  intros Hone Hmax Hlt.
  assert (Hany : forall (policy : VelocityVectorType) v s,
             Optimize (velocityType := policy) Evaluate opt src fn it
             = Done (v, s) ->
             v = fst (Evaluate fn it) /\
             length (trajectory s) = 1 /\
             length (evaluated s) = dimension opt).
  { intros policy v s Hrun. unfold Optimize in Hrun.
    destruct (Nat.eq_dec (dimension opt) 0) as [Hd|Hd].
    { rewrite initialize_no_particle in Hrun by exact Hd. discriminate Hrun. }
    assert (Hpos : 1 <= dimension opt) by lia.
    rewrite initialize_defined in Hrun by exact Hpos. cbn [bind] in Hrun.
    destruct (maxIterations opt) as [|n]; [lia|]. cbn [iterations] in Hrun.
    exec_inv. destruct a as [ctl t]. cbn [fst snd] in Hrun.
    pose proof Ha as Hchk. apply iteration_Done in Hchk.
    destruct Hchk as (s1 & _ & H1 & _ & _ & Hchk).
    pose proof Ha as Hfr. apply iteration_frame in Hfr.
    destruct Hfr as (s1' & H1' & _ & _ & _ & Hcur & _ & _ & Hev & Htr).
    rewrite H1 in H1'. injection H1' as <-.
    apply update_bests_Done in H1. destruct H1 as (u & Hu & ->).
    pose proof Hu as Hval.
    apply first_sweep_value in Hval; [|exact Hone|exact Hpos].
    apply evaluate_swarm_frame in Hu. destruct Hu as (_ & vs & Hvs & Hvsl & _).
    cbn [currentObjective evaluated update_global] in Hcur, Hev.
    unfold check_tolerance in Hchk. rewrite Hcur, Hval, Hlt in Hchk.
    injection Hchk as <-. injection Hrun as <- <-.
    split; [reflexivity|]. split; [exact Htr|].
    rewrite Hev, Hvs. exact Hvsl. }
  split; [exact Hany|].
  intros Hok Hd.
  destruct (Optimize_defined Evaluate opt src fn Hok Hd) as (v & s & Hrun).
  exists s. destruct (Hany _ v s Hrun) as (<- & _). exact Hrun.
Qed.

Lemma Optimize_stops_after_the_first_iteration_witness :
  exists s : state unit,
    Optimize ten_minus_first (PSO 2 1%float 1%float 1%float 3 100%float)
      halves tt (Mat 1 2 [1%float; 2%float])
    = Done (9%float, s) /\
    length (trajectory s) = 1 /\
    length (evaluated s) = 2.
Proof.
  destruct (@Optimize_stops_after_the_first_iteration unit ten_minus_first
              (PSO 2 1%float 1%float 1%float 3 100%float) halves tt
              (Mat 1 2 [1%float; 2%float]))
    as [Hany Hreturns].
  - right. reflexivity.
  - simpl. lia.
  - reflexivity.
  - destruct Hreturns as (s & Hrun); [reflexivity | cbv; lia |].
    exists s. split; [exact Hrun|].
    exact (proj2 (Hany _ _ s Hrun)).
Defined.

(** *** Determinism in the draws *)

Section Draws.

Variable Fn : Type.
Variable Evaluate : Fn -> mat -> double * Fn.
Variable opt : PSOType.
Variables src1 src2 : source.
Variables r c : nat.

Lemma randu_same_draws (d : nat) :
  same_draws src1 src2 d (d + r * c) -> randu src1 d r c = randu src2 d r c.
Proof.
  intros H. unfold randu. f_equal. f_equal. apply map_ext_in.
  intros j Hj. apply in_seq in Hj. apply H. lia.
Qed.

Lemma Update_same_draws (d n : nat) (P V : cube) (bp bs : mat)
  (w c1 c2 : double) :
  c_n_rows P = r -> c_n_cols P = c ->
  same_draws src1 src2 d (d + 2 * (r * c)) ->
  InertiaWeight.Update src1 d P V bp bs w c1 c2 n =
  InertiaWeight.Update src2 d P V bp bs w c1 c2 n.
Proof.
  intros Hr Hc H. unfold InertiaWeight.Update. rewrite Hr, Hc.
  rewrite (@randu_same_draws d) by (intros j Hj; apply H; lia).
  destruct (randu src2 d r c) as [r1 d1] eqn:E1.
  assert (Hd1 : d1 = d + r * c) by (unfold randu in E1; now injection E1).
  subst d1.
  rewrite (@randu_same_draws (d + r * c)) by (intros j Hj; apply H; lia).
  reflexivity.
Qed.

Lemma Update_drawn (src : source) (d n d' : nat) (P V V' : cube)
  (bp bs : mat) (w c1 c2 : double) :
  InertiaWeight.Update src d P V bp bs w c1 c2 n = Done (V', d') ->
  d' = d + 2 * (c_n_rows P * c_n_cols P).
Proof.
  unfold InertiaWeight.Update, randu. intros H. exec_inv. lia.
Qed.

Lemma cube_plus_shape (a b p : cube) :
  cube_plus a b = Done p ->
  c_n_rows p = c_n_rows a /\ c_n_cols p = c_n_cols a.
Proof.
  unfold cube_plus. destruct (_ && _); [|discriminate]. intros H. exec_inv.
  split; reflexivity.
Qed.

Lemma iteration_same_draws (s : state Fn) :
  c_n_rows (particlePosition s) = r -> c_n_cols (particlePosition s) = c ->
  same_draws src1 src2 (drawn s) (drawn s + 2 * (r * c)) ->
  iteration Evaluate opt src1 s = iteration Evaluate opt src2 s.
Proof.
  intros Hr Hc H. unfold iteration.
  destruct (update_bests Evaluate opt s) as [s1|f] eqn:E1; [|reflexivity].
  cbn [bind]. apply update_bests_Done in E1. destruct E1 as (t & Ht & ->).
  apply evaluate_swarm_frame in Ht.
  destruct Ht as ((_ & HP & _ & _ & _ & Hdr & _) & _).
  unfold update_velocity. cbn [Update InertiaWeight.policy].
  cbn [update_global particlePosition particleVelocity bestParticlePosition
         bestSwarmPosition drawn].
  rewrite HP, Hdr.
  rewrite (@Update_same_draws (drawn s) (dimension opt) (particlePosition s))
    by assumption.
  reflexivity.
Qed.

Lemma iteration_draws (src : source) (s s' : state Fn) (ctl : control) :
  iteration Evaluate opt src s = Done (ctl, s') ->
  c_n_rows (particlePosition s') = c_n_rows (particlePosition s) /\
  c_n_cols (particlePosition s') = c_n_cols (particlePosition s) /\
  drawn s' =
  drawn s + 2 * (c_n_rows (particlePosition s) * c_n_cols (particlePosition s)).
Proof.
  intros H. apply iteration_Done in H.
  destruct H as (s1 & s2 & H1 & H2 & H3 & _).
  apply update_bests_Done in H1. destruct H1 as (t & Ht & ->).
  apply evaluate_swarm_frame in Ht.
  destruct Ht as ((_ & HP & _ & _ & _ & Hdr & _) & _).
  apply update_velocity_Done in H2. destruct H2 as (v & d & HU & ->).
  cbn [Update InertiaWeight.policy] in HU. apply Update_drawn in HU.
  apply update_position_Done in H3. destruct H3 as (p & Hp & ->).
  apply cube_plus_shape in Hp. simpl in *.
  rewrite HP, Hdr in *. destruct Hp as [-> ->]. auto.
Qed.

Lemma iterations_same_draws (n : nat) (s : state Fn) :
  c_n_rows (particlePosition s) = r -> c_n_cols (particlePosition s) = c ->
  same_draws src1 src2 (drawn s) (drawn s + n * (2 * (r * c))) ->
  iterations Evaluate opt src1 n s = iterations Evaluate opt src2 n s.
Proof.
  revert s. induction n as [|n IH]; intros s Hr Hc H; [reflexivity|].
  cbn [iterations].
  rewrite (iteration_same_draws s Hr Hc)
    by (intros j Hj; apply H; lia).
  destruct (iteration Evaluate opt src2 s) as [[ctl t]|f] eqn:E;
    [|reflexivity].
  cbn [bind fst snd]. destruct ctl; [reflexivity|].
  apply iteration_draws in E. destruct E as (Hr' & Hc' & Hdr).
  rewrite Hr, Hc in *.
  apply IH; [assumption | assumption |].
  intros j Hj. apply H. lia.
Qed.

End Draws.

(** C8.  Two runs of [Optimize] with the same objective, the same
    configuration and the same starting point, on two random sources whose
    first [maxIterations * 2 * rows * cols] draws are the same, give the
    same outcome: the same value returned and the same final variables,
    among them the position and velocity cubes of every iteration
    ([trajectory]) and the values evaluated ([evaluated]). *)
Theorem Optimize_is_determined_by_the_draws
  (Fn : Type) (Evaluate : Fn -> mat -> double * Fn) (opt : PSOType)
  (src1 src2 : source) (fn : Fn) (it : mat) :
  (forall j, j < maxIterations opt * (2 * (n_rows it * n_cols it)) ->
             src1 j = src2 j) ->
  Optimize (velocityType := InertiaWeight.policy) Evaluate opt src1 fn it =
  Optimize (velocityType := InertiaWeight.policy) Evaluate opt src2 fn it.
Proof.
  intros H. unfold Optimize.
  destruct (dimension opt) as [|d] eqn:Hd.
  - now rewrite initialize_no_particle.
  - rewrite initialize_defined by lia. cbn [bind].
    apply iterations_same_draws with (r := n_rows it) (c := n_cols it);
      try reflexivity.
    intros j Hj. apply H. cbn [initial_state drawn] in Hj. lia.
Qed.

Lemma Optimize_is_determined_by_the_draws_witness :
  Optimize ten_minus_first (default_PSO 1 2) halves tt (one_by_one 1%float) =
  Optimize ten_minus_first (default_PSO 1 2) halves_then_quarters tt
    (one_by_one 1%float).
Proof.
  apply (@Optimize_is_determined_by_the_draws unit ten_minus_first
           (default_PSO 1 2) halves halves_then_quarters tt
           (one_by_one 1%float)).
  intros j Hj. unfold halves, halves_then_quarters.
  replace (j <? 4) with true; [reflexivity|].
  symmetry. apply Nat.ltb_lt. simpl in Hj. lia.
Defined.

(* ------------------------------------------------------------------ *)
(** ** The older [InertiaWeight::Update] on well-shaped swarms *)

Lemma replace_elem_length (l : list double) (k : nat) (x : double) :
  length (replace_elem l k x) = length l.
Proof.
  revert k. induction l as [|y l IH]; intros [|k]; simpl; auto.
Qed.

Section ElementLoop.

Variable src : source.
Variables r c d : nat.
Variable P : cube.
Variables bp bs : mat.
Variables w c1 c2 : double.

Hypothesis P_shape : cube_of r c d P.
Hypothesis bp_shape : has_shape r c bp.
Hypothesis bs_shape : has_shape r c bs.

(** The loops over the elements of one particle. *)
Local Abbreviation particle_loops :=
  (InertiaWeightElementLoop.update_particle src P bp bs w c1 c2).

Lemma update_element_in_bounds (i k drawn0 : nat) (V : cube) :
  cube_of r c d V -> i < d -> i < r * c -> k < r * c ->
  exists V',
    InertiaWeightElementLoop.update_element src P bp bs w c1 c2 i k
      (V, drawn0) = Done (V', S (S drawn0)) /\
    cube_of r c d V'.
Proof.
  intros HV Hid Hirc Hk.
  destruct (slice_cube_of HV Hid) as (v & _ & Hsv & Hvs).
  destruct (slice_cube_of P_shape Hid) as (x & _ & Hsx & Hxs).
  destruct (at_in_bounds Hvs Hk) as (vk & _ & Hvk).
  destruct (at_in_bounds Hxs Hk) as (xk & _ & Hxk).
  destruct (at_in_bounds bp_shape Hirc) as (pb & _ & Hpb).
  destruct (at_in_bounds bs_shape Hirc) as (gb & _ & Hgb).
  unfold InertiaWeightElementLoop.update_element.
  rewrite Hsv. cbn [bind]. rewrite Hvk. cbn [bind]. rewrite Hpb. cbn [bind].
  rewrite Hsx. cbn [bind]. rewrite Hxk. cbn [bind]. rewrite Hgb. cbn [bind].
  unfold set_at. destruct Hvs as (Hv1 & Hv2 & Hv3).
  unfold mat_ok, n_elem in Hv3.
  replace (k <? length (mem v)) with true
    by (symmetry; apply Nat.ltb_lt; rewrite Hv3, Hv1, Hv2; exact Hk).
  cbn [bind].
  match goal with
  | |- context [set_slice V i ?m] =>
      destruct (@set_slice_cube_of r c d i V m HV Hid) as (Hset & Hcube)
  end.
  { unfold has_shape, mat_ok, n_elem. simpl.
    rewrite replace_elem_length. auto. }
  rewrite Hset. cbn [bind]. eexists. split; [reflexivity | exact Hcube].
Qed.

Lemma update_element_out_of_bounds (i k drawn0 : nat) (V : cube) :
  cube_of r c d V -> i < d -> r * c <= i -> k < r * c ->
  InertiaWeightElementLoop.update_element src P bp bs w c1 c2 i k (V, drawn0)
  = Undefined ElementOutOfBounds.
Proof.
  intros HV Hid Hirc Hk.
  destruct (slice_cube_of HV Hid) as (v & _ & Hsv & Hvs).
  destruct (at_in_bounds Hvs Hk) as (vk & _ & Hvk).
  unfold InertiaWeightElementLoop.update_element.
  rewrite Hsv. cbn [bind]. rewrite Hvk. cbn [bind].
  now rewrite (at_out_of_bounds bp_shape Hirc).
Qed.

Lemma column_loop_in_bounds (i drawn0 : nat) (V : cube) :
  cube_of r c d V -> i < d -> i < r * c -> 1 <= r ->
  exists V',
    for_upto c (InertiaWeightElementLoop.update_element src P bp bs w c1 c2 i)
      (V, drawn0) = Done (V', drawn0 + 2 * c) /\
    cube_of r c d V'.
Proof.
  intros HV Hid Hirc Hr. unfold for_upto.
  destruct (@for_range_defined _
              (InertiaWeightElementLoop.update_element src P bp bs w c1 c2 i)
              (fun k vd => cube_of r c d (fst vd) /\ snd vd = drawn0 + 2 * k)
              c 0 (V, drawn0)) as ([V' d'] & Hrun & HV' & Hd').
  - intros k [Vt dt] Hk [HVt Hdt]. cbn [fst snd] in *. subst dt.
    destruct (@update_element_in_bounds i k (drawn0 + 2 * k) Vt HVt Hid Hirc)
      as (Vn & Hn & HVn); [nia|].
    exists (Vn, S (S (drawn0 + 2 * k))). split; [exact Hn|].
    cbn [fst snd]. split; [exact HVn | lia].
  - cbn [fst snd]. split; [exact HV | lia].
  - cbn [fst snd] in *. subst d'. exists V'. split; [exact Hrun | exact HV'].
Qed.

Lemma element_loops_in_bounds (i drawn0 : nat) (V : cube) :
  cube_of r c d V -> i < d -> i < r * c ->
  exists V',
    particle_loops i (V, drawn0) = Done (V', drawn0 + 2 * (r * c)) /\
    cube_of r c d V'.
Proof.
  intros HV Hid Hirc. unfold InertiaWeightElementLoop.update_particle.
  destruct (@slice_cube_of r c d 0 P P_shape) as (first & _ & Hs & Hf);
    [lia|].
  rewrite Hs. cbn [bind]. destruct Hf as (Hr1 & Hc1 & _). rewrite Hr1, Hc1.
  clear Hs Hr1 Hc1 first. unfold for_upto at 1.
  destruct (@for_range_defined _
              (fun (_ : nat) vd =>
                 for_upto c
                   (InertiaWeightElementLoop.update_element src P bp bs
                      w c1 c2 i) vd)
              (fun j vd => cube_of r c d (fst vd) /\
                           snd vd = drawn0 + j * (2 * c))
              r 0 (V, drawn0)) as ([V' d'] & Hrun & HV' & Hd').
  - intros j [Vt dt] Hj [HVt Hdt]. cbn [fst snd] in *. subst dt.
    destruct (@column_loop_in_bounds i (drawn0 + j * (2 * c)) Vt HVt Hid Hirc)
      as (Vn & Hn & HVn); [lia|].
    eexists. split; [exact Hn|]. cbn [fst snd]. split; [exact HVn | lia].
  - cbn [fst snd]. split; [exact HV | lia].
  - cbn [fst snd] in *. subst d'. exists V'. split; [|exact HV'].
    rewrite Hrun. f_equal. f_equal. lia.
Qed.

Lemma element_loops_out_of_bounds (i drawn0 : nat) (V : cube) :
  cube_of r c d V -> i < d -> r * c <= i -> 1 <= r * c ->
  particle_loops i (V, drawn0) = Undefined ElementOutOfBounds.
Proof.
  intros HV Hid Hirc Hrc. unfold InertiaWeightElementLoop.update_particle.
  destruct (@slice_cube_of r c d 0 P P_shape) as (first & _ & Hs & Hf);
    [lia|].
  rewrite Hs. cbn [bind]. destruct Hf as (Hr1 & Hc1 & _). rewrite Hr1, Hc1.
  clear Hs Hr1 Hc1 first. unfold for_upto.
  rewrite for_range_first by nia. rewrite for_range_first by nia.
  rewrite (@update_element_out_of_bounds i 0 drawn0 V HV Hid Hirc); [|lia].
  reflexivity.
Qed.

Lemma element_loops_empty (i drawn0 : nat) (V : cube) :
  i < d -> r * c = 0 -> particle_loops i (V, drawn0) = Done (V, drawn0).
Proof.
  intros Hid Hrc. unfold InertiaWeightElementLoop.update_particle.
  destruct (@slice_cube_of r c d 0 P P_shape) as (first & _ & Hs & Hf);
    [lia|].
  rewrite Hs. cbn [bind]. destruct Hf as (Hr1 & Hc1 & _). rewrite Hr1, Hc1.
  clear Hs Hr1 Hc1 first. unfold for_upto.
  assert (Hzero : r = 0 \/ c = 0) by nia.
  destruct Hzero as [Hz|Hz]; rewrite Hz; [reflexivity|].
  cbn [for_range]. apply for_range_skip.
Qed.

(** X9.  The older [Update] indexes the best matrices as the newer one
    does.  It is defined when [d <= r * c]; it reads an element out of
    bounds when [d > r * c], unless a position has no element at all: its
    loops then never run, and it changes nothing. *)
Lemma ElementLoop_Update_indexes_the_bests_by_particle (drawn0 : nat)
  (V : cube) :
  cube_of r c d V ->
  (d <= r * c ->
   exists V',
     InertiaWeightElementLoop.Update src drawn0 P V bp bs w c1 c2 d
     = Done (V', drawn0 + d * (2 * (r * c))) /\ cube_of r c d V') /\
  (r * c < d -> 1 <= r * c ->
   InertiaWeightElementLoop.Update src drawn0 P V bp bs w c1 c2 d
   = Undefined ElementOutOfBounds) /\
  (r * c = 0 ->
   InertiaWeightElementLoop.Update src drawn0 P V bp bs w c1 c2 d
   = Done (V, drawn0)).
Proof.
  intros HV.
  unfold InertiaWeightElementLoop.Update.
  assert (Hprefix : forall n, n <= d -> n <= r * c ->
            exists V', for_upto n particle_loops (V, drawn0)
                       = Done (V', drawn0 + n * (2 * (r * c))) /\
                       cube_of r c d V').
  { intros n Hnd Hnrc. unfold for_upto.
    destruct (@for_range_defined _ particle_loops
                (fun i vd => cube_of r c d (fst vd) /\
                             snd vd = drawn0 + i * (2 * (r * c)))
                n 0 (V, drawn0)) as ([V' d'] & Hrun & HV' & Hd').
    - intros i [Vt dt] Hi [HVt Hdt]. cbn [fst snd] in *. subst dt.
      destruct (@element_loops_in_bounds i (drawn0 + i * (2 * (r * c))) Vt HVt)
        as (Vn & Hn & HVn); [lia | lia |].
      eexists. split; [exact Hn|]. cbn [fst snd]. split; [exact HVn | lia].
    - cbn [fst snd]. split; [exact HV | lia].
    - cbn [fst snd] in *. subst d'. exists V'.
      split; [exact Hrun | exact HV']. }
  split; [|split].
  - intros Hd. apply Hprefix; [lia | exact Hd].
  - intros Hd Hrc. unfold for_upto.
    replace d with (r * c + (d - r * c)) at 1 by lia.
    rewrite for_range_app.
    destruct (Hprefix (r * c)) as (Vt & Hrun & HVt); [lia | lia |].
    unfold for_upto in Hrun. rewrite Hrun. cbn [bind Nat.add].
    destruct (d - r * c) as [|k] eqn:E; [lia|]. cbn [for_range].
    rewrite (@element_loops_out_of_bounds (r * c) _ Vt HVt); [|lia|lia|lia].
    reflexivity.
  - intros Hrc. unfold for_upto.
    rewrite (@for_range_ext _ particle_loops (fun _ t => Done t));
      [apply for_range_skip|].
    intros i [Vt dt] Hi. apply element_loops_empty; lia.
Qed.

End ElementLoop.

(* ------------------------------------------------------------------ *)
(** ** Further properties of the runs *)

(** *** Shapes, bounds and draws with the inertia-weight policy *)

Section Shapes.

Variable Fn : Type.
Variable Evaluate : Fn -> mat -> double * Fn.
Variable opt : PSOType.
Variable src : source.
Variables r c : nat.

(** With more particles than a position has elements, the first call of
    [Update] that an iteration makes reads out of bounds. *)
Lemma iteration_out_of_bounds (s : state Fn) :
  well_shaped opt r c s -> r * c < dimension opt ->
  iteration (velocityType := InertiaWeight.policy) Evaluate opt src s
  = Undefined ElementOutOfBounds.
Proof.
  intros Hs Hd. unfold iteration, update_bests.
  destruct (evaluate_swarm_defined Evaluate Hs) as (s1 & Hrun1 & Hs1).
  rewrite Hrun1. cbn [bind].
  pose proof (update_global_well_shaped Hs1) as (HP & HV & Hbp & Hbs).
  unfold update_velocity. cbn [Update InertiaWeight.policy].
  rewrite (@Update_out_of_bounds src (drawn (update_global s1)) r c
             (dimension opt) _ _ _ _ (interiaWeight opt)
             (cognitiveAcceleration opt) (socialAcceleration opt)
             HP HV Hbp Hbs Hd).
  reflexivity.
Qed.

(** An iteration appends to the trajectory the cubes it leaves. *)
Lemma iteration_trajectory (policy : VelocityVectorType) (s s' : state Fn)
  (ctl : control) :
  iteration (velocityType := policy) Evaluate opt src s = Done (ctl, s') ->
  trajectory s' =
  trajectory s ++ [(particlePosition s', particleVelocity s')].
Proof.
  intros H. apply iteration_Done in H.
  destruct H as (s1 & s2 & H1 & H2 & H3 & _).
  apply update_bests_Done in H1. destruct H1 as (t & Ht & ->).
  apply evaluate_swarm_frame in Ht.
  destruct Ht as ((_ & _ & _ & _ & _ & _ & Htr) & _).
  apply update_velocity_Done in H2. destruct H2 as (v & d & _ & ->).
  apply update_position_Done in H3. destruct H3 as (p & _ & ->).
  simpl. now rewrite Htr.
Qed.

(** An iteration that is defined keeps the shapes. *)
Lemma iteration_keeps_the_shape (s s' : state Fn) (ctl : control) :
  well_shaped opt r c s ->
  iteration (velocityType := InertiaWeight.policy) Evaluate opt src s
  = Done (ctl, s') ->
  well_shaped opt r c s'.
Proof.
  intros Hs H.
  destruct (Nat.le_gt_cases (dimension opt) (r * c)) as [Hle|Hgt].
  2:{ rewrite (iteration_out_of_bounds Hs Hgt) in H. discriminate H. }
  apply iteration_Done in H. destruct H as (s1 & s2 & H1 & H2 & H3 & _).
  apply update_bests_Done in H1. destruct H1 as (t & Ht & ->).
  destruct (evaluate_swarm_defined Evaluate Hs) as (t' & Ht' & Hshape).
  rewrite Ht in Ht'. injection Ht' as <-.
  pose proof (update_global_well_shaped Hshape) as (HP & HV & Hbp & Hbs).
  apply update_velocity_Done in H2. destruct H2 as (v & d & HU & ->).
  cbn [Update InertiaWeight.policy] in HU.
  destruct (@Update_in_bounds src (drawn (update_global t)) r c
              (dimension opt) _ _ _ _ (interiaWeight opt)
              (cognitiveAcceleration opt) (socialAcceleration opt)
              HP HV Hbp Hbs Hle) as (V' & HV' & HV's & _).
  rewrite HV' in HU. injection HU as <- <-.
  apply update_position_Done in H3. destruct H3 as (p & Hp & ->).
  cbn [particlePosition particleVelocity] in Hp.
  destruct (cube_plus_cube_of HP HV's) as (p' & Hp' & Hps).
  rewrite Hp in Hp'. injection Hp' as <-.
  unfold well_shaped. cbn [particlePosition particleVelocity
    bestParticlePosition bestSwarmPosition]. auto.
Qed.

Lemma iterations_keep_the_shape (n : nat) (s s' : state Fn) (v : double) :
  well_shaped opt r c s ->
  shaped_trajectory r c (dimension opt) (trajectory s) ->
  iterations (velocityType := InertiaWeight.policy) Evaluate opt src n s
  = Done (v, s') ->
  well_shaped opt r c s' /\
  shaped_trajectory r c (dimension opt) (trajectory s').
Proof.
  revert s. induction n as [|n IH]; intros s Hs Htr H; simpl in H.
  - injection H as _ <-. split; assumption.
  - exec_inv. destruct a as [ctl t]. cbn [fst snd] in H.
    assert (Ht : well_shaped opt r c t /\
                 shaped_trajectory r c (dimension opt) (trajectory t)).
    { pose proof (iteration_keeps_the_shape Hs Ha) as Hshape.
      split; [exact Hshape|].
      pose proof Ha as Htraj. apply iteration_trajectory in Htraj.
      rewrite Htraj. unfold shaped_trajectory.
      apply Forall_app. split; [exact Htr|].
      constructor; [|constructor]. cbn [fst snd]. split; apply Hshape. }
    destruct ctl.
    + injection H as _ <-. exact Ht.
    + apply (IH t); tauto.
Qed.

(** An iteration that is defined draws [2 * rows * cols] numbers, and
    leaves the shape fields of the position cube as they were. *)
Lemma iterations_drawn (n : nat) (s s' : state Fn) (v : double) :
  c_n_rows (particlePosition s) = r -> c_n_cols (particlePosition s) = c ->
  drawn s = length (trajectory s) * (2 * (r * c)) ->
  iterations (velocityType := InertiaWeight.policy) Evaluate opt src n s
  = Done (v, s') ->
  drawn s' = length (trajectory s') * (2 * (r * c)).
Proof.
  revert s. induction n as [|n IH]; intros s Hr Hc Hd H; simpl in H.
  - injection H as _ <-. exact Hd.
  - exec_inv. destruct a as [ctl t]. cbn [fst snd] in H.
    pose proof Ha as Hdraw. apply iteration_draws in Hdraw.
    destruct Hdraw as (Hr' & Hc' & Hdr).
    pose proof Ha as Htraj. apply iteration_trajectory in Htraj.
    assert (Ht : drawn t = length (trajectory t) * (2 * (r * c))).
    { rewrite Hdr, Htraj, length_app, Hd, Hr, Hc. simpl. lia. }
    destruct ctl.
    + injection H as _ <-. exact Ht.
    + apply (IH t); congruence.
Qed.

End Shapes.

(** X1.  With the inertia-weight policy, a run from a well-formed starting
    point that returns leaves position and velocity cubes of
    [dimension] slices of the shape of the starting point, best matrices
    of that shape, and has had such cubes at the end of every iteration. *)
Theorem Optimize_keeps_the_shape_of_the_starting_point
  (Fn : Type) (Evaluate : Fn -> mat -> double * Fn) (opt : PSOType)
  (src : source) (fn : Fn) (it : mat) (v : double) (s : state Fn) :
  mat_ok it ->
  Optimize (velocityType := InertiaWeight.policy) Evaluate opt src fn it
  = Done (v, s) ->
  well_shaped opt (n_rows it) (n_cols it) s /\
  shaped_trajectory (n_rows it) (n_cols it) (dimension opt) (trajectory s).
Proof.
  intros Hok H. unfold Optimize in H.
  destruct (Nat.eq_dec (dimension opt) 0) as [Hd|Hd].
  - rewrite initialize_no_particle in H by exact Hd. discriminate H.
  - rewrite initialize_defined in H by lia. cbn [bind] in H.
    apply iterations_keep_the_shape with (r := n_rows it) (c := n_cols it)
      in H; [exact H | now apply initial_well_shaped | constructor].
Qed.

Lemma Optimize_keeps_the_shape_witness :
  exists (v : double) (s : state unit),
    Optimize ten_minus_first (default_PSO 2 3) halves tt
      (Mat 1 2 [1%float; 2%float]) = Done (v, s) /\
    well_shaped (default_PSO 2 3) 1 2 s /\
    shaped_trajectory 1 2 2 (trajectory s).
Proof.
  destruct (@Optimize_defined unit ten_minus_first (default_PSO 2 3) halves tt
              (Mat 1 2 [1%float; 2%float])) as (v & s & Hrun);
    [reflexivity | cbv; lia |].
  exists v, s. split; [exact Hrun|].
  apply (@Optimize_keeps_the_shape_of_the_starting_point unit ten_minus_first
           (default_PSO 2 3) halves tt (Mat 1 2 [1%float; 2%float]) v s);
    [reflexivity | exact Hrun].
Defined.

(** X2.  With the inertia-weight policy, a run that returns after [k]
    iterations has drawn [k * 2 * rows * cols] uniform numbers: two
    matrices per iteration, whatever the number of particles. *)
Theorem Optimize_draws_two_matrices_per_iteration
  (Fn : Type) (Evaluate : Fn -> mat -> double * Fn) (opt : PSOType)
  (src : source) (fn : Fn) (it : mat) (v : double) (s : state Fn) :
  Optimize (velocityType := InertiaWeight.policy) Evaluate opt src fn it
  = Done (v, s) ->
  drawn s = length (trajectory s) * (2 * (n_rows it * n_cols it)).
Proof.
  intros H. unfold Optimize in H.
  destruct (Nat.eq_dec (dimension opt) 0) as [Hd|Hd].
  - rewrite initialize_no_particle in H by exact Hd. discriminate H.
  - rewrite initialize_defined in H by lia. cbn [bind] in H.
    apply iterations_drawn with (r := n_rows it) (c := n_cols it) in H;
      [exact H | reflexivity | reflexivity | reflexivity].
Qed.

Lemma Optimize_draws_witness :
  exists (v : double) (s : state unit),
    Optimize ten_minus_first (default_PSO 2 3) halves tt
      (Mat 1 2 [1%float; 2%float]) = Done (v, s) /\
    drawn s = length (trajectory s) * (2 * (1 * 2)).
Proof.
  destruct (@Optimize_defined unit ten_minus_first (default_PSO 2 3) halves tt
              (Mat 1 2 [1%float; 2%float])) as (v & s & Hrun);
    [reflexivity | cbv; lia |].
  exists v, s. split; [exact Hrun|].
  exact (@Optimize_draws_two_matrices_per_iteration unit ten_minus_first
           (default_PSO 2 3) halves tt (Mat 1 2 [1%float; 2%float]) v s Hrun).
Defined.

(** X3.  With the inertia-weight policy, more particles than the starting
    point has elements, and at least one iteration allowed, [Optimize]
    reads a best matrix out of bounds in its first iteration, whatever the
    objective.  So does the default-constructed optimizer, of ten
    particles, on every starting point of fewer than ten elements. *)
Theorem Optimize_with_more_particles_than_elements
  (Fn : Type) (Evaluate : Fn -> mat -> double * Fn) (opt : PSOType)
  (src : source) (fn : Fn) (it : mat) :
  mat_ok it -> n_elem it < dimension opt -> 1 <= maxIterations opt ->
  Optimize (velocityType := InertiaWeight.policy) Evaluate opt src fn it
  = Undefined ElementOutOfBounds.
Proof.
  intros Hok Hd Hmax. unfold Optimize.
  rewrite initialize_defined by lia. cbn [bind].
  destruct (maxIterations opt) as [|n]; [lia|]. cbn [iterations].
  rewrite (@iteration_out_of_bounds _ Evaluate opt src (n_rows it) (n_cols it)
             (initial_state opt fn it) (initial_well_shaped opt fn Hok) Hd).
  reflexivity.
Qed.

Lemma Optimize_with_more_particles_than_elements_witness :
  Optimize ten_minus_first default_constructed halves tt
    (Mat 2 1 [1%float; 2%float])
  = Undefined ElementOutOfBounds.
Proof.
  apply (@Optimize_with_more_particles_than_elements unit ten_minus_first
           default_constructed halves tt (Mat 2 1 [1%float; 2%float])).
  - reflexivity.
  - cbv. lia.
  - cbv. lia.
Defined.

(** *** Where the best values come from *)

Section Provenance.

Variable Fn : Type.
Variable Evaluate : Fn -> mat -> double * Fn.
Context {velocityType : VelocityVectorType}.
Variable opt : PSOType.
Variable src : source.

Lemma initial_or_evaluated_app (ev more : list double) (v : double) :
  initial_or_evaluated ev v -> initial_or_evaluated (ev ++ more) v.
Proof.
  intros [H|H]; [left; exact H | right; apply in_or_app; left; exact H].
Qed.

Lemma evaluate_swarm_tracked (s s' : state Fn) :
  tracked Evaluate s -> evaluate_swarm Evaluate opt s = Done s' ->
  tracked Evaluate s'.
Proof.
  unfold evaluate_swarm, for_upto. intros H0 H.
  apply (@for_range_invariant _ _ (fun _ t => tracked Evaluate t)) in H;
    [exact H | | exact H0].
  intros i t t' _ (Hind & Hglob & Hall) Hstep.
  apply evaluate_particle_Done in Hstep. destruct Hstep as (x & _ & ->).
  unfold tracked. cbn [lastObjectiveIndividual lastObjectiveGlobal evaluated].
  split; [|split].
  - destruct (lt _ _).
    + right. apply in_or_app. right. left. reflexivity.
    + now apply initial_or_evaluated_app.
  - now apply initial_or_evaluated_app.
  - apply Forall_app. split; [exact Hall|].
    constructor; [|constructor]. exists (function t), x. reflexivity.
Qed.

Lemma iteration_tracked (s s' : state Fn) (ctl : control) :
  tracked Evaluate s -> iteration Evaluate opt src s = Done (ctl, s') ->
  tracked Evaluate s'.
Proof.
  intros Hs H. apply iteration_frame in H.
  destruct H as (s1 & H1 & _ & _ & _ & _ & Hind & Hglob & Hev & _).
  apply update_bests_Done in H1. destruct H1 as (t & Ht & ->).
  destruct (evaluate_swarm_tracked Hs Ht) as (Hi & Hg & Hall).
  unfold tracked. rewrite Hind, Hglob, Hev.
  cbn [lastObjectiveIndividual lastObjectiveGlobal evaluated update_global].
  split; [exact Hi|]. split; [|exact Hall].
  destruct (lt _ _); assumption.
Qed.

Lemma iterations_tracked (n : nat) (s s' : state Fn) (v : double) :
  tracked Evaluate s -> coincide s ->
  iterations Evaluate opt src n s = Done (v, s') ->
  tracked Evaluate s' /\ coincide s'.
Proof.
  revert s. induction n as [|n IH]; intros s Hs Hc H; simpl in H.
  - injection H as _ <-. split; assumption.
  - exec_inv. destruct a as [ctl t]. cbn [fst snd] in H.
    pose proof (iteration_tracked Hs Ha) as Ht.
    assert (Hct : coincide t) by (eapply iteration_coincide; eassumption).
    destruct ctl.
    + injection H as _ <-. split; assumption.
    + apply (IH t); assumption.
Qed.

Variable fn : Fn.
Variable it : mat.

Lemma Optimize_tracked (v : double) (s : state Fn) :
  Optimize Evaluate opt src fn it = Done (v, s) ->
  tracked Evaluate s /\ coincide s.
Proof.
  unfold Optimize. intros H. exec_inv.
  apply (@iterations_tracked (maxIterations opt) a s v);
    [| now apply (initialize_coincide opt fn it) | exact H].
  unfold initialize in Ha. exec_inv. unfold tracked, initial_or_evaluated.
  simpl. auto.
Qed.

Hypothesis pure : position_only Evaluate.

Lemma evaluate_swarm_valued (s s' : state Fn) :
  valued Evaluate fn s -> evaluate_swarm Evaluate opt s = Done s' ->
  valued Evaluate fn s'.
Proof.
  unfold evaluate_swarm, for_upto. intros H0 H.
  apply (@for_range_invariant _ _ (fun _ t => valued Evaluate fn t)) in H;
    [exact H | | exact H0].
  intros i t t' _ (Hind & Hglob) Hstep.
  apply evaluate_particle_Done in Hstep. destruct Hstep as (x & _ & ->).
  unfold valued. cbn [lastObjectiveIndividual lastObjectiveGlobal
    bestParticlePosition bestSwarmPosition].
  split; [|exact Hglob].
  destruct (lt _ _); [right; apply pure | exact Hind].
Qed.

Lemma iterations_valued (n : nat) (s s' : state Fn) (v : double) :
  valued Evaluate fn s -> iterations Evaluate opt src n s = Done (v, s') ->
  valued Evaluate fn s'.
Proof.
  revert s. induction n as [|n IH]; intros s Hs H; simpl in H.
  - now injection H as _ <-.
  - exec_inv. destruct a as [ctl t]. cbn [fst snd] in H.
    assert (Ht : valued Evaluate fn t).
    { apply iteration_frame in Ha.
      destruct Ha as (s1 & H1 & _ & Hbp & Hbs & _ & Hind & Hglob & _).
      apply update_bests_Done in H1. destruct H1 as (u & Hu & ->).
      destruct (evaluate_swarm_valued Hs Hu) as (Hi & Hg).
      unfold valued. rewrite Hbp, Hbs, Hind, Hglob.
      cbn [lastObjectiveIndividual lastObjectiveGlobal
             bestParticlePosition bestSwarmPosition update_global].
      split; [exact Hi|]. destruct (lt _ _); assumption. }
    destruct ctl.
    + now injection H as _ <-.
    + apply (IH t); assumption.
Qed.

Lemma Optimize_valued (v : double) (s : state Fn) :
  Optimize Evaluate opt src fn it = Done (v, s) -> valued Evaluate fn s.
Proof.
  unfold Optimize. intros H. exec_inv.
  apply (@iterations_valued (maxIterations opt) a s v); [|exact H].
  unfold initialize in Ha. exec_inv. unfold valued. simpl. auto.
Qed.

End Provenance.

(** X4.  Whatever the velocity policy, when [Optimize] returns, the
    swarm-best objective is [DBL_MAX] or one of the values evaluated, no
    value evaluated compares below it, and the value returned is the
    swarm-best objective or an evaluated value below the tolerance. *)
Theorem Optimize_returns_the_least_value_or_one_below_tolerance
  (Fn : Type) (Evaluate : Fn -> mat -> double * Fn)
  (velocityType : VelocityVectorType) (opt : PSOType) (src : source)
  (fn : Fn) (it : mat) (v : double) (s : state Fn) :
  Optimize Evaluate opt src fn it = Done (v, s) ->
  initial_or_evaluated (evaluated s) (lastObjectiveGlobal s) /\
  (forall w, In w (evaluated s) -> lt w (lastObjectiveGlobal s) = false) /\
  (v = lastObjectiveGlobal s \/
   (In v (evaluated s) /\ lt v (tolerance opt) = true)).
Proof.
  intros H.
  destruct (Optimize_tracked _ _ _ _ _ H)
    as ((_ & Hglob & _) & (_ & _ & _ & Hmin)).
  split; [exact Hglob|]. split; [exact Hmin|].
  pose proof H as Hout. apply Optimize_outcome in Hout.
  destruct Hout as (_ & [(_ & _ & Hlast & Hlt)|(_ & _ & Hv)]).
  - right. split; [|exact Hlt].
    unfold last_evaluated_in in Hlast. eapply nth_error_In, Hlast.
  - left. exact Hv.
Qed.

Lemma Optimize_returns_the_least_value_witness :
  exists (v : double) (s : state unit),
    Optimize ten_minus_first (default_PSO 2 3) halves tt
      (Mat 1 2 [1%float; 2%float]) = Done (v, s) /\
    initial_or_evaluated (evaluated s) (lastObjectiveGlobal s) /\
    (forall w, In w (evaluated s) -> lt w (lastObjectiveGlobal s) = false) /\
    (v = lastObjectiveGlobal s \/
     (In v (evaluated s) /\ lt v default_tolerance = true)).
Proof.
  destruct (@Optimize_defined unit ten_minus_first (default_PSO 2 3) halves tt
              (Mat 1 2 [1%float; 2%float])) as (v & s & Hrun);
    [reflexivity | cbv; lia |].
  exists v, s. split; [exact Hrun|].
  exact (@Optimize_returns_the_least_value_or_one_below_tolerance
           unit ten_minus_first InertiaWeight.policy (default_PSO 2 3) halves
           tt (Mat 1 2 [1%float; 2%float]) v s Hrun).
Defined.

(** X5.  When the value of the objective depends on the position only,
    whatever the velocity policy, [Optimize] returns with a swarm-best
    objective that is the value of the objective at the swarm-best position,
    unless it still is [DBL_MAX]; and likewise for the individual best. *)
Theorem Optimize_best_objective_is_the_value_at_the_best_position
  (Fn : Type) (Evaluate : Fn -> mat -> double * Fn)
  (velocityType : VelocityVectorType) (opt : PSOType) (src : source)
  (fn : Fn) (it : mat) (v : double) (s : state Fn) :
  position_only Evaluate ->
  Optimize Evaluate opt src fn it = Done (v, s) ->
  (lastObjectiveGlobal s = DBL_MAX \/
   fst (Evaluate fn (bestSwarmPosition s)) = lastObjectiveGlobal s) /\
  (lastObjectiveIndividual s = DBL_MAX \/
   fst (Evaluate fn (bestParticlePosition s)) = lastObjectiveIndividual s).
Proof.
  intros Hpure H.
  pose proof H as Hval. apply Optimize_valued in Hval; [|exact Hpure].
  destruct Hval as (Hind & Hglob). split; assumption.
Qed.

Lemma Optimize_best_objective_witness :
  exists (v : double) (s : state unit),
    Optimize ten_minus_first (default_PSO 2 3) halves tt
      (Mat 1 2 [1%float; 2%float]) = Done (v, s) /\
    (lastObjectiveGlobal s = DBL_MAX \/
     fst (ten_minus_first tt (bestSwarmPosition s)) = lastObjectiveGlobal s) /\
    (lastObjectiveIndividual s = DBL_MAX \/
     fst (ten_minus_first tt (bestParticlePosition s))
     = lastObjectiveIndividual s).
Proof.
  destruct (@Optimize_defined unit ten_minus_first (default_PSO 2 3) halves tt
              (Mat 1 2 [1%float; 2%float])) as (v & s & Hrun);
    [reflexivity | cbv; lia |].
  exists v, s. split; [exact Hrun|].
  apply (@Optimize_best_objective_is_the_value_at_the_best_position
           unit ten_minus_first InertiaWeight.policy (default_PSO 2 3) halves
           tt (Mat 1 2 [1%float; 2%float]) v s); [|exact Hrun].
  intros f f' x. reflexivity.
Defined.

(** X6.  Whatever the population size and the velocity policy, [Optimize]
    returns with the individual-best slot equal to the swarm-best slot,
    objective and position: the individual best is one slot for the whole
    swarm, and the cognitive and the social term of the velocity update are
    drawn towards the same matrix. *)
Theorem Optimize_keeps_one_best_for_the_swarm
  (Fn : Type) (Evaluate : Fn -> mat -> double * Fn)
  (velocityType : VelocityVectorType) (opt : PSOType) (src : source)
  (fn : Fn) (it : mat) (v : double) (s : state Fn) :
  Optimize Evaluate opt src fn it = Done (v, s) ->
  lastObjectiveIndividual s = lastObjectiveGlobal s /\
  bestParticlePosition s = bestSwarmPosition s.
Proof.
  intros H.
  destruct (Optimize_tracked _ _ _ _ _ H) as (_ & (Hobj & Hpos & _)).
  split; assumption.
Qed.

Lemma Optimize_keeps_one_best_witness :
  exists (v : double) (s : state unit),
    Optimize ten_minus_first (default_PSO 2 3) halves tt
      (Mat 1 2 [1%float; 2%float]) = Done (v, s) /\
    lastObjectiveIndividual s = lastObjectiveGlobal s /\
    bestParticlePosition s = bestSwarmPosition s.
Proof.
  destruct (@Optimize_defined unit ten_minus_first (default_PSO 2 3) halves tt
              (Mat 1 2 [1%float; 2%float])) as (v & s & Hrun);
    [reflexivity | cbv; lia |].
  exists v, s. split; [exact Hrun|].
  exact (@Optimize_keeps_one_best_for_the_swarm
           unit ten_minus_first InertiaWeight.policy (default_PSO 2 3) halves
           tt (Mat 1 2 [1%float; 2%float]) v s Hrun).
Defined.

(** X7.  When no value of the objective is below the tolerance (as when
    the tolerance is NaN, or the objective is), whatever the velocity
    policy, a run of [Optimize] that returns has run [maxIterations]
    iterations, evaluated [maxIterations * dimension] values, and returns
    the swarm-best objective. *)
Theorem Optimize_uses_every_iteration_above_the_tolerance
  (Fn : Type) (Evaluate : Fn -> mat -> double * Fn)
  (velocityType : VelocityVectorType) (opt : PSOType) (src : source)
  (fn : Fn) (it : mat) (v : double) (s : state Fn) :
  (forall (f : Fn) (x : mat),
     lt (fst (Evaluate f x)) (tolerance opt) = false) ->
  Optimize Evaluate opt src fn it = Done (v, s) ->
  length (trajectory s) = maxIterations opt /\
  length (evaluated s) = maxIterations opt * dimension opt /\
  v = lastObjectiveGlobal s.
Proof.
  intros Habove H.
  destruct (Optimize_tracked _ _ _ _ _ H) as ((_ & _ & Hall) & _).
  pose proof H as Hout. apply Optimize_outcome in Hout.
  destruct Hout as (Hlen & [(_ & _ & Hlast & Hlt)|(Hk & _ & Hv)]).
  - exfalso. unfold last_evaluated_in in Hlast.
    apply nth_error_In in Hlast. rewrite Forall_forall in Hall.
    destruct (Hall v Hlast) as (f & x & ->).
    rewrite Habove in Hlt. discriminate Hlt.
  - rewrite Hk in Hlen. auto.
Qed.

Lemma Optimize_uses_every_iteration_witness :
  exists (v : double) (s : state unit),
    Optimize always_nan (default_PSO 2 3) halves tt
      (Mat 1 2 [1%float; 2%float]) = Done (v, s) /\
    length (trajectory s) = 3 /\
    length (evaluated s) = 3 * 2 /\
    v = lastObjectiveGlobal s.
Proof.
  destruct (@Optimize_defined unit always_nan (default_PSO 2 3) halves tt
              (Mat 1 2 [1%float; 2%float])) as (v & s & Hrun);
    [reflexivity | cbv; lia |].
  exists v, s. split; [exact Hrun|].
  apply (@Optimize_uses_every_iteration_above_the_tolerance
           unit always_nan InertiaWeight.policy (default_PSO 2 3) halves
           tt (Mat 1 2 [1%float; 2%float]) v s); [|exact Hrun].
  intros f x. reflexivity.
Defined.

(** *** The older [Update]: which elements it writes *)

Lemma nth_error_replace_elem_other (l : list double) (k j : nat) (x : double) :
  j <> k -> nth_error (replace_elem l k x) j = nth_error l j.
Proof.
  revert k j. induction l as [|y l IH]; intros [|k] [|j] H; simpl;
    try reflexivity; try congruence.
  apply IH. congruence.
Qed.

Lemma set_slice_Done (q q' : cube) (i : nat) (m : mat) :
  set_slice q i m = Done q' ->
  i < length (slices q) /\ slices q' = replace_nth (slices q) i m.
Proof.
  unfold set_slice, n_slices. destruct (Nat.ltb_spec i (length (slices q)));
    [|discriminate].
  destruct (_ && _); [|discriminate]. intros [= <-]. auto.
Qed.

Section ElementLoopFrame.

Variable src : source.
Variable P : cube.
Variables bp bs : mat.
Variables w c1 c2 : double.

(** The assignment of lines 224-227 writes element [k] of slice [i] and
    nothing else. *)
Lemma update_element_frame (i k : nat) (vd vd' : cube * nat) :
  InertiaWeightElementLoop.update_element src P bp bs w c1 c2 i k vd
  = Done vd' ->
  forall i0 k0, k0 <> k -> element (fst vd') i0 k0 = element (fst vd) i0 k0.
Proof.
  destruct vd as [V d0]. unfold InertiaWeightElementLoop.update_element.
  intros H i0 k0 Hk.
  apply bind_Done in H. destruct H as (v & Hv & H).
  apply bind_Done in H. destruct H as (vk & _ & H).
  apply bind_Done in H. destruct H as (pb & _ & H).
  apply bind_Done in H. destruct H as (x & _ & H).
  apply bind_Done in H. destruct H as (xk & _ & H).
  apply bind_Done in H. destruct H as (gb & _ & H).
  cbv zeta in H.
  apply bind_Done in H. destruct H as (v' & Hv' & H).
  apply bind_Done in H. destruct H as (V2 & HV2 & H).
  injection H as <-. cbn [fst].
  apply set_slice_Done in HV2. destruct HV2 as (Hi & Hslices).
  unfold set_at in Hv'. destruct (_ <? _); [|discriminate].
  injection Hv' as <-. unfold element. rewrite Hslices.
  rewrite (nth_error_replace_nth _ _ _ Hi).
  destruct (Nat.eqb_spec i0 i) as [->|Hne]; [|reflexivity].
  cbn [mem]. rewrite nth_error_replace_elem_other by exact Hk.
  unfold slice in Hv. destruct (nth_error (slices V) i); [|discriminate].
  now injection Hv as ->.
Qed.

Lemma particle_loops_frame (i : nat) (first : mat) (vd vd' : cube * nat) :
  nth_error (slices P) 0 = Some first ->
  InertiaWeightElementLoop.update_particle src P bp bs w c1 c2 i vd
  = Done vd' ->
  forall i0 k0, n_cols first <= k0 ->
                element (fst vd') i0 k0 = element (fst vd) i0 k0.
Proof.
  intros Hfirst. unfold InertiaWeightElementLoop.update_particle, slice.
  rewrite Hfirst. cbn [bind]. unfold for_upto. intros H.
  refine (@for_range_invariant _ _
            (fun _ t => forall i0 k0, n_cols first <= k0 ->
                          element (fst t) i0 k0 = element (fst vd) i0 k0)
            _ _ _ _ _ (fun _ _ _ => eq_refl) H).
  intros j t t' _ Ht Hrow.
  refine (@for_range_invariant _ _
            (fun _ u => forall i0 k0, n_cols first <= k0 ->
                          element (fst u) i0 k0 = element (fst vd) i0 k0)
            _ _ _ _ _ Ht Hrow).
  intros k u u' Hk Hu Hstep i0 k0 Hk0.
  rewrite (@update_element_frame i k u u' Hstep i0 k0) by lia. now apply Hu.
Qed.

End ElementLoopFrame.

(** X8.  The older [Update] writes [m[j, k]], which is [m[k]]: whenever
    it returns, in every velocity slice only the elements of linear index
    below [n_cols] can have changed; on positions of one column, that is
    element 0 alone. *)
Theorem ElementLoop_Update_writes_the_first_elements_only
  (src : source) (drawn0 d : nat) (P V V' : cube) (bp bs : mat)
  (w c1 c2 : double) (drawn' : nat) (first : mat) :
  nth_error (slices P) 0 = Some first ->
  InertiaWeightElementLoop.Update src drawn0 P V bp bs w c1 c2 d
  = Done (V', drawn') ->
  forall i k, n_cols first <= k -> element V' i k = element V i k.
Proof.
  intros Hfirst H. unfold InertiaWeightElementLoop.Update, for_upto in H.
  refine (@for_range_invariant _ _
            (fun _ t => forall i k, n_cols first <= k ->
                          element (fst t) i k = element V i k)
            _ _ (V, drawn0) (V', drawn') _ (fun _ _ _ => eq_refl) H).
  intros i t t' _ Ht Hstep i0 k0 Hk0.
  rewrite (@particle_loops_frame src P bp bs w c1 c2 i first t t'
             Hfirst Hstep i0 k0) by exact Hk0.
  now apply Ht.
Qed.

Lemma ElementLoop_Update_writes_the_first_elements_witness :
  exists V' drawn',
    InertiaWeightElementLoop.Update halves 0 two_columns two_columns
      a_column a_column 1%float 1%float 1%float 2 = Done (V', drawn') /\
    forall i k, 1 <= k -> element V' i k = element two_columns i k.
Proof.
  destruct (InertiaWeightElementLoop.Update halves 0 two_columns two_columns
              a_column a_column 1%float 1%float 1%float 2)
    as [[V' drawn']|f] eqn:E; [|vm_compute in E; discriminate E].
  exists V', drawn'. split; [reflexivity|]. intros i k Hk.
  exact (@ElementLoop_Update_writes_the_first_elements_only halves 0 2
           two_columns two_columns V' a_column a_column
           1%float 1%float 1%float drawn'
           (Mat 3 1 [1%float; 2%float; 3%float]) eq_refl E i k Hk).
Defined.

Lemma ElementLoop_Update_indexes_the_bests_witness :
  (exists V',
     InertiaWeightElementLoop.Update halves 0 two_particles two_particles
       a_best a_best 1%float 1%float 1%float 2
     = Done (V', 0 + 2 * (2 * (1 * 2))) /\ cube_of 1 2 2 V') /\
  InertiaWeightElementLoop.Update halves 0 three_particles three_particles
    a_best a_best 1%float 1%float 1%float 3 = Undefined ElementOutOfBounds.
Proof.
  split.
  - apply (proj1 (@ElementLoop_Update_indexes_the_bests_by_particle
                    halves 1 2 2 two_particles a_best a_best
                    1%float 1%float 1%float
                    two_particles_shape a_best_shape a_best_shape
                    0 two_particles two_particles_shape)).
    simpl. lia.
  - apply (proj1 (proj2 (@ElementLoop_Update_indexes_the_bests_by_particle
                    halves 1 2 3 three_particles a_best a_best
                    1%float 1%float 1%float
                    three_particles_shape a_best_shape a_best_shape
                    0 three_particles three_particles_shape)));
      simpl; lia.
Defined.

(** *** Runs with the older [Update] *)

Lemma ElementLoop_Update_in_bounds (src : source) (r c d : nat) (P V : cube)
  (bp bs : mat) (w c1 c2 : double) (drawn0 : nat) :
  cube_of r c d P -> has_shape r c bp -> has_shape r c bs ->
  cube_of r c d V -> d <= r * c ->
  exists V',
    InertiaWeightElementLoop.Update src drawn0 P V bp bs w c1 c2 d
    = Done (V', drawn0 + d * (2 * (r * c))) /\ cube_of r c d V'.
Proof.
  intros HP Hbp Hbs HV Hd.
  unfold InertiaWeightElementLoop.Update, for_upto.
  destruct (@for_range_defined _
              (InertiaWeightElementLoop.update_particle src P bp bs w c1 c2)
              (fun i vd => cube_of r c d (fst vd) /\
                           snd vd = drawn0 + i * (2 * (r * c)))
              d 0 (V, drawn0)) as ([V' d'] & Hrun & HV' & Hd').
  - intros i [Vt dt] Hi [HVt Hdt]. cbn [fst snd] in *. subst dt.
    destruct (@element_loops_in_bounds src r c d P bp bs w c1 c2 HP Hbp Hbs
                i (drawn0 + i * (2 * (r * c))) Vt HVt)
      as (Vn & Hn & HVn); [lia | lia |].
    eexists. split; [exact Hn|]. cbn [fst snd]. split; [exact HVn | lia].
  - cbn [fst snd]. split; [exact HV | lia].
  - cbn [fst snd] in *. subst d'. exists V'. split; [exact Hrun | exact HV'].
Qed.

Section ElementLoopRuns.

Variable Fn : Type.
Variable Evaluate : Fn -> mat -> double * Fn.
Variable opt : PSOType.
Variable src : source.
Variables r c : nat.

Hypothesis population : 1 <= dimension opt <= r * c.

Lemma ElementLoop_iteration_defined (s : state Fn) :
  well_shaped opt r c s ->
  exists ctl s',
    iteration (velocityType := InertiaWeightElementLoop.policy)
      Evaluate opt src s = Done (ctl, s') /\
    well_shaped opt r c s' /\
    drawn s' = drawn s + dimension opt * (2 * (r * c)).
Proof.
  intros Hs. unfold iteration, update_bests.
  destruct (evaluate_swarm_defined Evaluate Hs) as (s1 & Hrun1 & Hs1).
  rewrite Hrun1. cbn [bind].
  destruct (@evaluate_swarm_frame _ _ _ _ _ Hrun1)
    as ((_ & _ & _ & _ & _ & Hdr & _) & vs & _ & _ & Hcur).
  pose proof (update_global_well_shaped Hs1) as (HP & HV & Hbp & Hbs).
  destruct (@ElementLoop_Update_in_bounds src r c (dimension opt) _ _ _ _
              (interiaWeight opt) (cognitiveAcceleration opt)
              (socialAcceleration opt) (drawn (update_global s1))
              HP Hbp Hbs HV (proj2 population))
    as (V' & HV' & HV's).
  unfold update_velocity. cbn [Update InertiaWeightElementLoop.policy].
  rewrite HV'. cbn [bind fst snd].
  destruct (cube_plus_cube_of HP HV's) as (p & Hp & Hps).
  unfold update_position. cbn [particlePosition particleVelocity].
  rewrite Hp. cbn [bind]. unfold check_tolerance.
  cbn [currentObjective update_global]. rewrite Hcur by apply population.
  cbn [bind]. do 2 eexists. split; [reflexivity|].
  split; [|simpl; rewrite Hdr; reflexivity].
  unfold well_shaped. simpl. repeat split; try apply Hps; try apply HV's;
    try apply Hbp; try apply Hbs.
Qed.

Lemma ElementLoop_iterations_defined (n : nat) (s : state Fn) :
  well_shaped opt r c s ->
  drawn s = length (trajectory s) * (dimension opt * (2 * (r * c))) ->
  exists v s',
    iterations (velocityType := InertiaWeightElementLoop.policy)
      Evaluate opt src n s = Done (v, s') /\
    well_shaped opt r c s' /\
    drawn s' = length (trajectory s') * (dimension opt * (2 * (r * c))).
Proof.
  revert s. induction n as [|n IH]; intros s Hs Hd; simpl; [eauto|].
  destruct (ElementLoop_iteration_defined Hs) as (ctl & s' & Hit & Hs' & Hdr).
  rewrite Hit. cbn [bind fst snd].
  pose proof Hit as Htraj. apply iteration_trajectory in Htraj.
  assert (Hd' : drawn s' = length (trajectory s')
                           * (dimension opt * (2 * (r * c)))).
  { rewrite Hdr, Htraj, length_app, Hd. simpl. lia. }
  destruct ctl; [eauto | now apply IH].
Qed.

End ElementLoopRuns.

(** X10.  With the older [Update], [Optimize] returns whenever the
    starting point is well formed and there are at least one and at most
    [n_elem] particles.  It keeps the shapes, and draws a pair of numbers
    for every element of every particle: [dimension * 2 * rows * cols]
    numbers per iteration, [dimension] times what the newer [Update]
    draws. *)
Theorem ElementLoop_Optimize_draws_a_pair_per_element
  (Fn : Type) (Evaluate : Fn -> mat -> double * Fn) (opt : PSOType)
  (src : source) (fn : Fn) (it : mat) :
  mat_ok it -> 1 <= dimension opt <= n_elem it ->
  exists (v : double) (s : state Fn),
    Optimize (velocityType := InertiaWeightElementLoop.policy)
      Evaluate opt src fn it = Done (v, s) /\
    well_shaped opt (n_rows it) (n_cols it) s /\
    drawn s = length (trajectory s)
              * (dimension opt * (2 * (n_rows it * n_cols it))).
Proof.
  intros Hok Hd. unfold Optimize. rewrite initialize_defined by lia.
  cbn [bind].
  apply ElementLoop_iterations_defined;
    [exact Hd | now apply initial_well_shaped | reflexivity].
Qed.

Lemma ElementLoop_Optimize_draws_witness :
  exists (v : double) (s : state unit),
    Optimize (velocityType := InertiaWeightElementLoop.policy)
      ten_minus_first (default_PSO 2 3) halves tt
      (Mat 1 2 [1%float; 2%float]) = Done (v, s) /\
    well_shaped (default_PSO 2 3) 1 2 s /\
    drawn s = length (trajectory s) * (2 * (2 * (1 * 2))).
Proof.
  apply (@ElementLoop_Optimize_draws_a_pair_per_element unit ten_minus_first
           (default_PSO 2 3) halves tt (Mat 1 2 [1%float; 2%float]));
    [reflexivity | cbv; lia].
Defined.

(** *** How the positions move *)

Lemma position_after_app (p p' v' : cube) (tr : list (cube * cube)) :
  position_after p (tr ++ [(p', v')]) = p'.
Proof.
  revert p. induction tr as [|[q w] tr IH]; intros p; simpl;
    [reflexivity | apply IH].
Qed.

Lemma moved_by_velocities_app (p p' v' : cube) (tr : list (cube * cube)) :
  moved_by_velocities p tr ->
  cube_plus (position_after p tr) v' = Done p' ->
  moved_by_velocities p (tr ++ [(p', v')]).
Proof.
  revert p. induction tr as [|[q w] tr IH]; intros p; simpl.
  - intros _ H. split; [exact H | exact I].
  - intros [Hq Htr] H. split; [exact Hq | now apply IH].
Qed.

Section Moves.

Variable Fn : Type.
Variable Evaluate : Fn -> mat -> double * Fn.
Context {velocityType : VelocityVectorType}.
Variable opt : PSOType.
Variable src : source.

(** Lines 69-96: the only assignment to the positions is the sum of line
    96, of the positions the iteration found and the velocities it
    leaves. *)
Lemma iteration_moves (s s' : state Fn) (ctl : control) :
  iteration Evaluate opt src s = Done (ctl, s') ->
  cube_plus (particlePosition s) (particleVelocity s')
  = Done (particlePosition s').
Proof.
  intros H. apply iteration_Done in H.
  destruct H as (s1 & s2 & H1 & H2 & H3 & _).
  apply update_bests_Done in H1. destruct H1 as (t & Ht & ->).
  apply evaluate_swarm_frame in Ht.
  destruct Ht as ((_ & HP & _) & _).
  apply update_velocity_Done in H2. destruct H2 as (v & d & _ & ->).
  apply update_position_Done in H3. destruct H3 as (p & Hp & ->).
  cbn [particlePosition particleVelocity update_global] in *.
  rewrite <- HP. exact Hp.
Qed.

Lemma iterations_move (p0 : cube) (n : nat) (s s' : state Fn) (v : double) :
  moved_by_velocities p0 (trajectory s) ->
  particlePosition s = position_after p0 (trajectory s) ->
  iterations Evaluate opt src n s = Done (v, s') ->
  moved_by_velocities p0 (trajectory s') /\
  particlePosition s' = position_after p0 (trajectory s').
Proof.
  revert s. induction n as [|n IH]; intros s Hm Hp H; simpl in H.
  - injection H as _ <-. split; assumption.
  - exec_inv. destruct a as [ctl t]. cbn [fst snd] in H.
    pose proof Ha as Hmove. apply iteration_moves in Hmove.
    pose proof Ha as Htraj. apply iteration_trajectory in Htraj.
    assert (Ht : moved_by_velocities p0 (trajectory t) /\
                 particlePosition t = position_after p0 (trajectory t)).
    { rewrite Htraj, position_after_app. split; [|reflexivity].
      apply moved_by_velocities_app; [exact Hm|]. rewrite <- Hp.
      exact Hmove. }
    destruct ctl.
    + injection H as _ <-. exact Ht.
    + apply (IH t); tauto.
Qed.

End Moves.

(** X11.  Whatever the velocity policy, in a run of [Optimize] that
    returns the positions change by the sum of line 96 alone: the
    positions at the end of an iteration are those at the end of the
    iteration before (the copies of the starting point, for the first) plus
    the velocities at its end, and the positions at the return are those
    of the last iteration. *)
Theorem Optimize_moves_the_positions_by_the_velocities
  (Fn : Type) (Evaluate : Fn -> mat -> double * Fn)
  (velocityType : VelocityVectorType) (opt : PSOType) (src : source)
  (fn : Fn) (it : mat) (v : double) (s : state Fn) :
  Optimize Evaluate opt src fn it = Done (v, s) ->
  let start := Cube (n_rows it) (n_cols it) (repeat it (dimension opt)) in
  moved_by_velocities start (trajectory s) /\
  particlePosition s = position_after start (trajectory s).
Proof.
  intros H. unfold Optimize in H.
  destruct (Nat.eq_dec (dimension opt) 0) as [Hd|Hd].
  - rewrite initialize_no_particle in H by exact Hd. discriminate H.
  - rewrite initialize_defined in H by lia. cbn [bind] in H.
    cbv zeta. eapply iterations_move; [| |exact H].
    + exact I.
    + reflexivity.
Qed.

Lemma Optimize_moves_the_positions_witness :
  exists (v : double) (s : state unit),
    Optimize ten_minus_first (default_PSO 2 3) halves tt
      (Mat 1 2 [1%float; 2%float]) = Done (v, s) /\
    moved_by_velocities
      (Cube 1 2 [Mat 1 2 [1%float; 2%float]; Mat 1 2 [1%float; 2%float]])
      (trajectory s) /\
    particlePosition s =
    position_after
      (Cube 1 2 [Mat 1 2 [1%float; 2%float]; Mat 1 2 [1%float; 2%float]])
      (trajectory s).
Proof.
  destruct (@Optimize_defined unit ten_minus_first (default_PSO 2 3) halves tt
              (Mat 1 2 [1%float; 2%float])) as (v & s & Hrun);
    [reflexivity | cbv; lia |].
  exists v, s. split; [exact Hrun|].
  exact (@Optimize_moves_the_positions_by_the_velocities
           unit ten_minus_first InertiaWeight.policy (default_PSO 2 3) halves
           tt (Mat 1 2 [1%float; 2%float]) v s Hrun).
Defined.

(** *** The older [Update]: what it writes *)

Lemma nth_error_replace_elem_same (l : list double) (k : nat) (x : double) :
  k < length l -> nth_error (replace_elem l k x) k = Some x.
Proof.
  revert k. induction l as [|y l IH]; intros [|k] H; simpl in *;
    try lia; [reflexivity | apply IH; lia].
Qed.

Lemma at_Done (m : mat) (i : nat) (x : double) :
  at_ m i = Done x -> nth_error (mem m) i = Some x.
Proof.
  unfold at_. destruct (nth_error (mem m) i); [|discriminate].
  now intros [= ->].
Qed.

Lemma element_in_bounds (r c d i k : nat) (q : cube) :
  cube_of r c d q -> i < d -> k < r * c ->
  exists x, element q i k = Some x.
Proof.
  intros Hq Hi Hk. destruct (slice_cube_of Hq Hi) as (m & Hm & _ & Hms).
  destruct (at_in_bounds Hms Hk) as (x & Hx & _).
  exists x. unfold element. now rewrite Hm.
Qed.

Section ElementLoopEffect.

Variable src : source.
Variable P : cube.
Variables bp bs : mat.
Variables w c1 c2 : double.

(** Lines 224-227, when they are defined: two draws, one element
    assigned, every other element kept. *)
Lemma update_element_effect (i k : nat) (V V' : cube) (d0 d1 : nat) :
  InertiaWeightElementLoop.update_element src P bp bs w c1 c2 i k (V, d0)
  = Done (V', d1) ->
  d1 = S (S d0) /\
  (forall vk xk pb gb,
     element V i k = Some vk -> element P i k = Some xk ->
     nth_error (mem bp) i = Some pb -> nth_error (mem bs) i = Some gb ->
     element V' i k = Some (element_assigned src w c1 c2 pb gb xk d0 vk)) /\
  (forall i0 k0, i0 <> i \/ k0 <> k -> element V' i0 k0 = element V i0 k0).
Proof.
  unfold InertiaWeightElementLoop.update_element. intros H.
  apply bind_Done in H. destruct H as (v & Hv & H).
  apply bind_Done in H. destruct H as (vk' & Hvk & H).
  apply bind_Done in H. destruct H as (pb' & Hpb & H).
  apply bind_Done in H. destruct H as (x & Hx & H).
  apply bind_Done in H. destruct H as (xk' & Hxk & H).
  apply bind_Done in H. destruct H as (gb' & Hgb & H).
  cbv zeta in H.
  apply bind_Done in H. destruct H as (v' & Hv' & H).
  apply bind_Done in H. destruct H as (V2 & HV2 & H).
  injection H as <- <-.
  apply set_slice_Done in HV2. destruct HV2 as (Hi & Hslices).
  unfold set_at in Hv'.
  destruct (Nat.ltb_spec k (length (mem v))) as [Hk|Hk]; [|discriminate].
  injection Hv' as <-.
  apply at_Done in Hvk. apply at_Done in Hpb. apply at_Done in Hxk.
  apply at_Done in Hgb.
  unfold slice in Hv, Hx.
  destruct (nth_error (slices V) i) as [v0|] eqn:EV; [|discriminate].
  injection Hv as ->.
  destruct (nth_error (slices P) i) as [x0|] eqn:EP; [|discriminate].
  injection Hx as ->.
  split; [reflexivity|]. split.
  - intros vk xk pb gb HVk HPk Hbp Hbs. unfold element in *.
    rewrite EV in HVk. rewrite EP in HPk. unfold double in *.
    rewrite Hvk in HVk. rewrite Hxk in HPk. rewrite Hpb in Hbp.
    rewrite Hgb in Hbs.
    injection HVk as <-. injection HPk as <-. injection Hbp as <-.
    injection Hbs as <-.
    rewrite Hslices, (nth_error_replace_nth _ _ _ Hi), Nat.eqb_refl.
    cbn [mem]. rewrite nth_error_replace_elem_same by exact Hk.
    reflexivity.
  - intros i0 k0 Hne. unfold element.
    rewrite Hslices, (nth_error_replace_nth _ _ _ Hi).
    destruct (Nat.eqb_spec i0 i) as [->|Hi0]; [|reflexivity].
    cbn [mem]. rewrite EV. apply nth_error_replace_elem_other.
    destruct Hne as [Hne|Hne]; [congruence | exact Hne].
Qed.

(** The loop over the columns, lines 222-228: element [k] of particle [i]
    is assigned once, with the draws number [D + 2 * k] and the next. *)
Lemma column_loop_effect (i n : nat) (V V' : cube) (D D' : nat) :
  for_range 0 n
    (InertiaWeightElementLoop.update_element src P bp bs w c1 c2 i) (V, D)
  = Done (V', D') ->
  D' = D + 2 * n /\
  (forall k, k < n ->
   forall vk xk pb gb,
     element V i k = Some vk -> element P i k = Some xk ->
     nth_error (mem bp) i = Some pb -> nth_error (mem bs) i = Some gb ->
     element V' i k =
     Some (element_assigned src w c1 c2 pb gb xk (D + 2 * k) vk)) /\
  (forall i0 k0, i0 <> i \/ n <= k0 -> element V' i0 k0 = element V i0 k0).
Proof.
  intros H.
  refine (@for_range_invariant _ _
            (fun k' t =>
               snd t = D + 2 * k' /\
               (forall k, k < k' ->
                forall vk xk pb gb,
                  element V i k = Some vk -> element P i k = Some xk ->
                  nth_error (mem bp) i = Some pb ->
                  nth_error (mem bs) i = Some gb ->
                  element (fst t) i k =
                  Some (element_assigned src w c1 c2 pb gb xk (D + 2 * k)
                          vk)) /\
               (forall i0 k0, i0 <> i \/ k' <= k0 ->
                              element (fst t) i0 k0 = element V i0 k0))
            n 0 (V, D) (V', D') _ _ H).
  - intros k' [Vt dt] [Vn dn] _ (Hdt & Hdone & Hrest) Hstep.
    cbn [fst snd] in *. subst dt.
    apply update_element_effect in Hstep.
    destruct Hstep as (-> & Hval & Hframe).
    split; [lia|]. split.
    + intros k Hk vk xk pb gb HVk HPk Hbp Hbs.
      destruct (Nat.eq_dec k k') as [->|Hne].
      * apply Hval; try assumption.
        rewrite Hrest by (right; lia). exact HVk.
      * rewrite Hframe by (right; exact Hne).
        apply Hdone; try assumption. lia.
    + intros i0 k0 Hne. rewrite Hframe by (destruct Hne; [left|right]; lia).
      apply Hrest. destruct Hne; [left|right]; lia.
  - cbn [fst snd]. split; [lia|]. split; [intros k Hk; lia | reflexivity].
Qed.

(** The loop over the rows, lines 220-229: every row runs the loop over
    the columns again, on the same elements. *)
Lemma row_loop_effect (i rows cols : nat) (V V' : cube) (D D' : nat) :
  for_range 0 rows
    (fun (_ : nat) (vd : cube * nat) =>
       for_upto cols
         (InertiaWeightElementLoop.update_element src P bp bs w c1 c2 i) vd)
    (V, D)
  = Done (V', D') ->
  D' = D + rows * (2 * cols) /\
  (forall k, k < cols ->
   forall vk xk pb gb,
     element V i k = Some vk -> element P i k = Some xk ->
     nth_error (mem bp) i = Some pb -> nth_error (mem bs) i = Some gb ->
     element V' i k =
     Some (element_after_rows src w c1 c2 pb gb xk (D + 2 * k) (2 * cols)
             rows vk)) /\
  (forall i0 k0, i0 <> i \/ cols <= k0 ->
                 element V' i0 k0 = element V i0 k0).
Proof.
  intros H.
  refine (@for_range_invariant _ _
            (fun j t =>
               snd t = D + j * (2 * cols) /\
               (forall k, k < cols ->
                forall vk xk pb gb,
                  element V i k = Some vk -> element P i k = Some xk ->
                  nth_error (mem bp) i = Some pb ->
                  nth_error (mem bs) i = Some gb ->
                  element (fst t) i k =
                  Some (element_after_rows src w c1 c2 pb gb xk (D + 2 * k)
                          (2 * cols) j vk)) /\
               (forall i0 k0, i0 <> i \/ cols <= k0 ->
                              element (fst t) i0 k0 = element V i0 k0))
            rows 0 (V, D) (V', D') _ _ H).
  - intros j [Vt dt] [Vn dn] _ (Hdt & Hdone & Hrest) Hstep.
    cbn [fst snd] in *. subst dt. unfold for_upto in Hstep.
    apply column_loop_effect in Hstep.
    destruct Hstep as (-> & Hval & Hframe).
    split; [lia|]. split.
    + intros k Hk vk xk pb gb HVk HPk Hbp Hbs.
      cbn [element_after_rows].
      replace (D + 2 * k + 2 * cols * j) with (D + j * (2 * cols) + 2 * k)
        by lia.
      apply Hval; try assumption.
      apply Hdone; assumption.
    + intros i0 k0 Hne. rewrite Hframe by exact Hne. now apply Hrest.
  - cbn [fst snd]. split; [lia|]. split; [|reflexivity].
    intros k Hk vk xk pb gb HVk _ _ _. exact HVk.
Qed.

(** Lines 218-230 on positions of shape [r] by [c]: the loops of particle
    [i] start at draw number [drawn0 + i * (2 * (r * c))]. *)
Lemma ElementLoop_Update_effect (r c d n drawn0 drawn1 : nat)
  (V V' : cube) :
  cube_of r c d P ->
  InertiaWeightElementLoop.Update src drawn0 P V bp bs w c1 c2 n
  = Done (V', drawn1) ->
  (forall i k, i < n -> k < c ->
   forall vk xk pb gb,
     element V i k = Some vk -> element P i k = Some xk ->
     nth_error (mem bp) i = Some pb -> nth_error (mem bs) i = Some gb ->
     element V' i k =
     Some (element_after_rows src w c1 c2 pb gb xk
             (drawn0 + i * (2 * (r * c)) + 2 * k) (2 * c) r vk)) /\
  (forall i0 k0, n <= i0 \/ c <= k0 -> element V' i0 k0 = element V i0 k0).
Proof.
  intros HP H. unfold InertiaWeightElementLoop.Update, for_upto in H.
  assert (Hinv :
    snd (V', drawn1) = drawn0 + (0 + n) * (2 * (r * c)) /\
    (forall i k, i < 0 + n -> k < c ->
     forall vk xk pb gb,
       element V i k = Some vk -> element P i k = Some xk ->
       nth_error (mem bp) i = Some pb -> nth_error (mem bs) i = Some gb ->
       element (fst (V', drawn1)) i k =
       Some (element_after_rows src w c1 c2 pb gb xk
               (drawn0 + i * (2 * (r * c)) + 2 * k) (2 * c) r vk)) /\
    (forall i0 k0, 0 + n <= i0 \/ c <= k0 ->
                   element (fst (V', drawn1)) i0 k0 = element V i0 k0)).
  { refine (@for_range_invariant _ _
              (fun i' t =>
                 snd t = drawn0 + i' * (2 * (r * c)) /\
                 (forall i k, i < i' -> k < c ->
                  forall vk xk pb gb,
                    element V i k = Some vk -> element P i k = Some xk ->
                    nth_error (mem bp) i = Some pb ->
                    nth_error (mem bs) i = Some gb ->
                    element (fst t) i k =
                    Some (element_after_rows src w c1 c2 pb gb xk
                            (drawn0 + i * (2 * (r * c)) + 2 * k) (2 * c) r
                            vk)) /\
                 (forall i0 k0, i' <= i0 \/ c <= k0 ->
                                element (fst t) i0 k0 = element V i0 k0))
              n 0 (V, drawn0) (V', drawn1) _ _ H).
    - intros i' [Vt dt] [Vn dn] _ (Hdt & Hdone & Hrest) Hstep.
      cbn [fst snd] in *. subst dt.
      unfold InertiaWeightElementLoop.update_particle in Hstep.
      apply bind_Done in Hstep. destruct Hstep as (first & Hfirst & Hstep).
      assert (Hshape : n_rows first = r /\ n_cols first = c).
      { unfold slice in Hfirst.
        destruct (nth_error (slices P) 0) as [m|] eqn:E; [|discriminate].
        injection Hfirst as ->. apply nth_error_In in E.
        destruct HP as (_ & _ & _ & Hall). rewrite Forall_forall in Hall.
        destruct (Hall _ E) as (Hr & Hc & _). split; assumption. }
      destruct Hshape as [Hr Hc]. rewrite Hr, Hc in Hstep.
      unfold for_upto at 1 in Hstep. apply row_loop_effect in Hstep.
      destruct Hstep as (-> & Hval & Hframe).
      split; [lia|]. split.
      + intros i k Hi Hk vk xk pb gb HVk HPk Hbp Hbs.
        destruct (Nat.eq_dec i i') as [->|Hne].
        * apply Hval; try assumption.
          rewrite Hrest by (left; lia). exact HVk.
        * rewrite Hframe by (left; exact Hne).
          apply Hdone; try assumption. lia.
      + intros i0 k0 Hne.
        rewrite Hframe by (destruct Hne; [left|right]; lia).
        apply Hrest. destruct Hne; [left|right]; lia.
    - cbn [fst snd]. split; [lia|]. split; [|reflexivity].
      intros i k Hi. lia. }
  cbn [fst snd Nat.add] in Hinv. destruct Hinv as (_ & Hval & Hframe).
  split; assumption.
Qed.

End ElementLoopEffect.

Lemma ElementLoop_Update_out_of_bounds (src : source) (r c d : nat)
  (P V : cube) (bp bs : mat) (w c1 c2 : double) (drawn0 : nat) :
  cube_of r c d P -> has_shape r c bp -> has_shape r c bs ->
  cube_of r c d V -> r * c < d -> 1 <= r * c ->
  InertiaWeightElementLoop.Update src drawn0 P V bp bs w c1 c2 d
  = Undefined ElementOutOfBounds.
Proof.
  intros HP Hbp Hbs HV Hd Hrc.
  unfold InertiaWeightElementLoop.Update, for_upto.
  replace d with (r * c + (d - r * c)) at 1 by lia.
  rewrite for_range_app.
  destruct (@for_range_defined _
              (InertiaWeightElementLoop.update_particle src P bp bs w c1 c2)
              (fun i vd => cube_of r c d (fst vd))
              (r * c) 0 (V, drawn0)) as ([Vt dt] & Hrun & HVt).
  - intros i [Vi di] Hi HVi. cbn [fst] in *.
    destruct (@element_loops_in_bounds src r c d P bp bs w c1 c2 HP Hbp Hbs
                i di Vi HVi) as (Vn & Hn & HVn); [lia | lia |].
    eexists. split; [exact Hn | exact HVn].
  - exact HV.
  - rewrite Hrun. cbn [bind Nat.add fst] in *.
    destruct (d - r * c) as [|k] eqn:E; [lia|]. cbn [for_range].
    rewrite (@element_loops_out_of_bounds src r c d P bp bs w c1 c2
               HP Hbp (r * c) dt Vt HVt); [reflexivity|lia|lia|lia].
Qed.

Lemma ElementLoop_Update_empty (src : source) (r c d : nat)
  (P V : cube) (bp bs : mat) (w c1 c2 : double) (drawn0 : nat) :
  cube_of r c d P -> r * c = 0 ->
  InertiaWeightElementLoop.Update src drawn0 P V bp bs w c1 c2 d
  = Done (V, drawn0).
Proof.
  intros HP Hrc.
  unfold InertiaWeightElementLoop.Update, for_upto.
  rewrite (@for_range_ext _
             (InertiaWeightElementLoop.update_particle src P bp bs w c1 c2)
             (fun _ t => Done t)); [apply for_range_skip|].
  intros i [Vt dt] Hi.
  apply (@element_loops_empty src r c d P bp bs w c1 c2 HP); lia.
Qed.

(** *** The particle index as an element index, in both copies *)

(** C9, as stated, fails for the older [Update] on positions without
    elements: with two particles, more than the [0 * 0] elements of a
    position, the loops over the rows and the columns never run, no best
    matrix is read, and the velocities come back as they were. *)
Lemma ElementLoop_Update_reads_nothing_on_empty_positions :
  cube_of 0 0 2 two_empty_particles /\
  has_shape 0 0 no_element /\
  0 * 0 < 2 /\
  InertiaWeightElementLoop.Update halves 0 two_empty_particles
    two_empty_particles no_element no_element 1%float 1%float 1%float 2
  = Done (two_empty_particles, 0).
Proof.
  split; [|split; [|split]].
  - unfold cube_of, has_shape, mat_ok. repeat constructor.
  - repeat constructor.
  - simpl. lia.
  - vm_compute. reflexivity.
Qed.

(** C9, amended.  On a swarm of [d] particles of shape [r] by [c], with
    best matrices of that shape, both copies of [InertiaWeight::Update]
    read the best matrices at the linear index of the particle.

    The copy that draws [r1] and [r2]: when [d <= r * c] it is defined,
    and the new velocity of particle [i] is built from the two scalars
    [bestParticlePosition[i]] and [bestSwarmPosition[i]] ([new_velocity]);
    nothing else of the best matrices matters; and when [d > r * c] it
    reads an element out of bounds.

    The older copy, with the loops over the elements: when [d <= r * c] it
    is defined, and the velocity of particle [i] holds what the repeated
    assignment leaves, built from the same two scalars
    ([element_loop_velocity]); when [d > r * c] and a position has an
    element, it reads an element out of bounds; and when a position has no
    element it reads nothing and returns the velocities as they were. *)
Theorem Update_indexes_the_bests_by_particle
  (src : source) (drawn0 r c d : nat) (P V : cube) (bp bs : mat)
  (w c1 c2 : double) :
  cube_of r c d P -> cube_of r c d V ->
  has_shape r c bp -> has_shape r c bs ->
  ((d <= r * c ->
    exists V',
      InertiaWeight.Update src drawn0 P V bp bs w c1 c2 d
      = Done (V', drawn0 + 2 * (r * c)) /\
      forall i, i < d ->
        exists m, nth_error (slices V') i = Some m /\
                  new_velocity src drawn0 r c P V bp bs w c1 c2 i m) /\
   (forall bp' bs',
      (forall i, i < d -> nth_error (mem bp') i = nth_error (mem bp) i) ->
      (forall i, i < d -> nth_error (mem bs') i = nth_error (mem bs) i) ->
      InertiaWeight.Update src drawn0 P V bp' bs' w c1 c2 d =
      InertiaWeight.Update src drawn0 P V bp bs w c1 c2 d) /\
   (r * c < d ->
    InertiaWeight.Update src drawn0 P V bp bs w c1 c2 d
    = Undefined ElementOutOfBounds)) /\
  ((d <= r * c ->
    exists V',
      InertiaWeightElementLoop.Update src drawn0 P V bp bs w c1 c2 d
      = Done (V', drawn0 + d * (2 * (r * c))) /\
      cube_of r c d V' /\
      forall i, i < d ->
        element_loop_velocity src drawn0 r c P V bp bs w c1 c2 i V') /\
   (r * c < d -> 1 <= r * c ->
    InertiaWeightElementLoop.Update src drawn0 P V bp bs w c1 c2 d
    = Undefined ElementOutOfBounds) /\
   (r * c = 0 ->
    InertiaWeightElementLoop.Update src drawn0 P V bp bs w c1 c2 d
    = Done (V, drawn0))).
Proof.
  intros HP HV Hbp Hbs. split; split; [| split | | split].
  - intros Hd.
    destruct (@Update_in_bounds src drawn0 r c d P V bp bs w c1 c2
                HP HV Hbp Hbs Hd) as (V' & Hrun & _ & Hnew).
    exists V'. split; assumption.
  - intros bp' bs'. apply Update_reads_only_the_first_elements.
  - apply Update_out_of_bounds; assumption.
  - intros Hd.
    destruct (@ElementLoop_Update_in_bounds src r c d P V bp bs w c1 c2
                drawn0 HP Hbp Hbs HV Hd) as (V' & Hrun & HV').
    exists V'. split; [exact Hrun|]. split; [exact HV'|].
    pose proof Hrun as Heff.
    apply (@ElementLoop_Update_effect src P bp bs w c1 c2 r c d) in Heff;
      [|exact HP].
    destruct Heff as (Hval & Hframe).
    intros i Hi.
    assert (Hirc : i < r * c) by lia.
    destruct (at_in_bounds Hbp Hirc) as (pb & Hpb & _).
    destruct (at_in_bounds Hbs Hirc) as (gb & Hgb & _).
    exists pb, gb. split; [exact Hpb|]. split; [exact Hgb|]. split.
    + intros k Hk.
      assert (Hkrc : k < r * c).
      { assert (Hr : 1 <= r)
          by (destruct (Nat.eq_dec r 0); [subst; simpl in Hirc|]; lia).
        nia. }
      destruct (element_in_bounds HV Hi Hkrc) as (vk & Hvk).
      destruct (element_in_bounds HP Hi Hkrc) as (xk & Hxk).
      exists vk, xk. split; [exact Hvk|]. split; [exact Hxk|].
      apply Hval; assumption.
    + intros k Hk. apply Hframe. right. exact Hk.
  - intros Hd Hrc.
    apply ElementLoop_Update_out_of_bounds with (r := r) (c := c);
      assumption.
  - intros Hrc. apply ElementLoop_Update_empty with (r := r) (c := c);
      assumption.
Qed.

Lemma Update_indexes_the_bests_witness :
  ((exists V',
      InertiaWeight.Update halves 0 two_particles two_particles a_best a_best
        1%float 1%float 1%float 2 = Done (V', 4) /\
      forall i, i < 2 ->
        exists m, nth_error (slices V') i = Some m /\
                  new_velocity halves 0 1 2 two_particles two_particles
                    a_best a_best 1%float 1%float 1%float i m) /\
   InertiaWeight.Update halves 0 three_particles three_particles a_best a_best
     1%float 1%float 1%float 3 = Undefined ElementOutOfBounds) /\
  ((exists V',
      InertiaWeightElementLoop.Update halves 0 two_particles two_particles
        a_best a_best 1%float 1%float 1%float 2 = Done (V', 8) /\
      cube_of 1 2 2 V' /\
      forall i, i < 2 ->
        element_loop_velocity halves 0 1 2 two_particles two_particles
          a_best a_best 1%float 1%float 1%float i V') /\
   InertiaWeightElementLoop.Update halves 0 three_particles three_particles
     a_best a_best 1%float 1%float 1%float 3 = Undefined ElementOutOfBounds).
Proof.
  pose proof (@Update_indexes_the_bests_by_particle halves 0 1 2 2
                two_particles two_particles a_best a_best
                1%float 1%float 1%float
                two_particles_shape two_particles_shape
                a_best_shape a_best_shape) as [Hnew2 Hold2].
  pose proof (@Update_indexes_the_bests_by_particle halves 0 1 2 3
                three_particles three_particles a_best a_best
                1%float 1%float 1%float
                three_particles_shape three_particles_shape
                a_best_shape a_best_shape) as [Hnew3 Hold3].
  split; split.
  - apply (proj1 Hnew2). simpl. lia.
  - apply (proj2 (proj2 Hnew3)). simpl. lia.
  - apply (proj1 Hold2). simpl. lia.
  - apply (proj1 (proj2 Hold3)); simpl; lia.
Defined.
